(** * Battle arena: a shallow embedding of [main.py] and its properties

    The Python program is embedded function by function.  Integers are
    [Z] (Python integers do not wrap), the [float] fields are IEEE
    binary64 values ([PrimFloat.float]), strings are [string].  Python
    objects that are mutated in place and reached through several
    references (the units of a team, the weapon of a hero) live in
    explicit stores: a unit store and a weapon store, both lists indexed
    by a location.  A reference to an object is its location. *)

From Stdlib Require Import ZArith List String Ascii Bool Floats Lia.
From Stdlib Require Import Sorting.Sorted Sorting.Permutation.
From stdpp Require Import base tactics option list sorting.
From Stdlib Require Import DecimalString DecimalPos.
From stdpp Require Import gmap strings.

Local Open Scope Z_scope.

(** ** Python built-ins used by the program *)

Module Py.

(** The exceptions the modelled code can raise. *)
Inductive exn : Set :=
| OverflowError   (* int too large for a float; int(inf) *)
| ValueError      (* int(nan); min() of an empty sequence *)
| IndexError      (* list index out of range *)
| EOFError.       (* input() at end of input *)

(** [min(a, b)] on floats: the first argument is kept unless the
    second one is strictly smaller (so a NaN second argument is
    dropped). *)
Definition fmin (a b : float) : float :=
  if PrimFloat.ltb b a then b else a.

(** [float(z)] as done by [int * float]: round to nearest even;
    [OverflowError] when no finite float is near enough. *)
Definition float_of_int (z : Z) : exn + float :=
  match binary_normalize prec emax z 0 false with
  | S754_infinity _ => inl OverflowError
  | sf => inr (SF2Prim sf)
  end.

(** [int(f)]: truncation toward zero. *)
Definition int_of_float (f : float) : exn + Z :=
  match Prim2SF f with
  | S754_zero _ => inr 0
  | S754_finite s m e =>
      let mag := if (0 <=? e)%Z then Z.pos m * 2 ^ e
                 else Z.pos m / 2 ^ (- e) in
      inr (if s then - mag else mag)
  | S754_infinity _ => inl OverflowError
  | S754_nan => inl ValueError
  end.

(** A result or a raised exception, with the usual sequencing. *)
Definition bind {A B : Type} (r : exn + A) (k : A → exn + B) : exn + B :=
  match r with
  | inl e => inl e
  | inr a => k a
  end.

(** *** Text of an input line (ASCII) *)

(** [str.isspace] on one character: tab to carriage return, the four
    separators 28..31, and the blank. *)
Definition isspace (c : ascii) : bool :=
  let n := nat_of_ascii c in
  ((9 <=? n) && (n <=? 13) || (28 <=? n) && (n <=? 32))%nat.

Fixpoint lstrip (s : list ascii) : list ascii :=
  match s with
  | c :: s' => if isspace c then lstrip s' else s
  | [] => []
  end.

Definition strip (s : string) : string :=
  string_of_list_ascii
    (rev (lstrip (rev (lstrip (list_ascii_of_string s))))).

Definition lower_char (c : ascii) : ascii :=
  let n := nat_of_ascii c in
  if ((65 <=? n) && (n <=? 90))%nat then ascii_of_nat (n + 32) else c.

Definition lower (s : string) : string :=
  string_of_list_ascii (map lower_char (list_ascii_of_string s)).

Definition digit (c : ascii) : option Z :=
  let n := nat_of_ascii c in
  if ((48 <=? n) && (n <=? 57))%nat then Some (Z.of_nat (n - 48)) else None.

(** [str.isdigit]: not empty, and digits only. *)
Definition isdigit (s : string) : bool :=
  match list_ascii_of_string s with
  | [] => false
  | cs => forallb (λ c, bool_decide (is_Some (digit c))) cs
  end.

(** [int(s)] for a string of digits. *)
Definition int_of_str (s : string) : Z :=
  fold_left (λ acc c, 10 * acc + default 0 (digit c))
            (list_ascii_of_string s) 0.

(** [str(z)], which is also how an f-string writes an integer: the
    decimal digits, after a minus sign when [z] is negative. *)
Definition str_of_int (z : Z) : string :=
  NilZero.string_of_int (Z.to_int z).

End Py.

(** ** Configuration constants *)

Definition START_GOLD : Z := 20.
Definition ROUND_INCOME : Z := 5.
Definition MAX_UNITS : nat := 6.

(** Locations in the unit store and in the weapon store. *)
Definition loc := nat.

(** ** [class Weapon] *)

Module Weapon.

Record t : Set := mk {
  damage_bonus : Z;
  crit_bonus : float;
  speed_bonus : Z
}.

(** [Weapon()]: the dataclass defaults. *)
Definition new : t :=
  {| damage_bonus := 0; crit_bonus := 0%float; speed_bonus := 0 |}.

(** The generated [__eq__]: field-wise comparison. *)
Definition eqb (a b : t) : bool :=
  (damage_bonus a =? damage_bonus b)
  && PrimFloat.eqb (crit_bonus a) (crit_bonus b)
  && (speed_bonus a =? speed_bonus b).

End Weapon.

(** ** [class Unit] *)

Module Unit.

Record t : Set := mk {
  name : string;
  max_hp : Z;
  attack : Z;
  defense : Z;
  crit : float;
  speed : Z;
  is_hero : bool;
  weapon : option loc;      (* [Weapon | None], a reference *)
  hp : Z
}.

(** The constructor followed by [__post_init__]: whatever [hp] was
    passed, it is overwritten by [max_hp]. *)
Definition new (name : string) (max_hp attack defense : Z) (crit : float)
    (speed : Z) (is_hero : bool) (weapon : option loc) (hp : Z) : t :=
  {| name := name; max_hp := max_hp; attack := attack; defense := defense;
     crit := crit; speed := speed; is_hero := is_hero; weapon := weapon;
     hp := max_hp |}.

Definition is_alive (u : t) : bool := 0 <? hp u.

(** [self.is_hero and self.weapon], read in weapon store [ws]: the
    weapon object when both hold.  A location outside the store does
    not arise (a Python reference cannot dangle); it reads as no
    weapon. *)
Definition armed (ws : list Weapon.t) (u : t) : option Weapon.t :=
  if is_hero u then weapon u ≫= (ws !!.) else None.

Definition effective_attack (ws : list Weapon.t) (u : t) : Z :=
  match armed ws u with
  | Some w => attack u + Weapon.damage_bonus w
  | None => attack u
  end.

Definition effective_crit (ws : list Weapon.t) (u : t) : float :=
  match armed ws u with
  | Some w => Py.fmin 0.75 (crit u + Weapon.crit_bonus w)
  | None => crit u
  end.

Definition effective_speed (ws : list Weapon.t) (u : t) : Z :=
  match armed ws u with
  | Some w => speed u + Weapon.speed_bonus w
  | None => speed u
  end.

(** [take_hit]: the unit after the hit, and the returned amount. *)
Definition take_hit (u : t) (raw_damage : Z) : t * Z :=
  let mitigated := Z.max 1 (raw_damage - defense u) in
  ({| name := name u; max_hp := max_hp u; attack := attack u;
      defense := defense u; crit := crit u; speed := speed u;
      is_hero := is_hero u; weapon := weapon u;
      hp := Z.max 0 (hp u - mitigated) |},
   mitigated).

(** Equality of two weapon fields: the same object (or both [None]),
    or two weapon objects that [Weapon.__eq__] finds equal. *)
Definition weapon_eqb (ws : list Weapon.t) (a b : option loc) : bool :=
  match a, b with
  | None, None => true
  | Some la, Some lb =>
      (la =? lb)%nat
      || match ws !! la, ws !! lb with
         | Some wa, Some wb => Weapon.eqb wa wb
         | _, _ => false
         end
  | _, _ => false
  end.

(** The generated [__eq__]: the tuples of all nine fields are compared
    (floats by value). *)
Definition eqb (ws : list Weapon.t) (a b : t) : bool :=
  String.eqb (name a) (name b)
  && (max_hp a =? max_hp b)
  && (attack a =? attack b)
  && (defense a =? defense b)
  && PrimFloat.eqb (crit a) (crit b)
  && (speed a =? speed b)
  && Bool.eqb (is_hero a) (is_hero b)
  && weapon_eqb ws (weapon a) (weapon b)
  && (hp a =? hp b).

End Unit.

(** ** [class Team] *)

Module Team.

(** [units] is a Python list of references to unit objects. *)
Record t : Set := mk {
  name : string;
  units : list loc
}.

(** [unit.is_alive()] through a reference, in unit store [us]. *)
Definition alive_at (us : list Unit.t) (l : loc) : bool :=
  match us !! l with
  | Some u => Unit.is_alive u
  | None => false
  end.

Definition alive_units (us : list Unit.t) (tm : t) : list loc :=
  filter (λ l, alive_at us l) (units tm).

Definition is_defeated (us : list Unit.t) (tm : t) : bool :=
  forallb (λ l, negb (alive_at us l)) (units tm).

End Team.

(** ** The catalogs *)

Module Template.

Record t : Set := mk {
  name : string;
  cost : Z;
  max_hp : Z;
  attack : Z;
  defense : Z;
  crit : float;
  speed : Z
}.

End Template.

Set Warnings "-inexact-float".

Definition UNIT_CATALOG : list Template.t :=
  [ Template.mk "Swordsman" 4 24 7 2 0.05 5;
    Template.mk "Archer" 5 18 9 1 0.10 7;
    Template.mk "Guardian" 6 32 6 4 0.03 3;
    Template.mk "Rogue" 5 20 8 1 0.15 8 ].

Module Upgrade.

(** The pair of the ["key"] and ["value"] entries of an upgrade: the
    key says which weapon field the value is added to, and fixes the
    type of the value. *)
Inductive effect : Set :=
| damage (value : Z)
| crit (value : float)
| speed (value : Z).

Record t : Set := mk {
  key : effect;
  label : string;
  cost : Z
}.

(** The [if key == "damage" ... elif ...] chain that both
    [run_upgrade_shop] and [ai_upgrade_weapon] run on the weapon. *)
Definition apply (up : t) (w : Weapon.t) : Weapon.t :=
  match key up with
  | damage v =>
      Weapon.mk (Weapon.damage_bonus w + v) (Weapon.crit_bonus w)
                (Weapon.speed_bonus w)
  | crit v =>
      Weapon.mk (Weapon.damage_bonus w)
                (Py.fmin 0.75 (Weapon.crit_bonus w + v))
                (Weapon.speed_bonus w)
  | speed v =>
      Weapon.mk (Weapon.damage_bonus w) (Weapon.crit_bonus w)
                (Weapon.speed_bonus w + v)
  end.

(** The same, on the weapon object behind reference [l]. *)
Definition apply_at (up : t) (l : loc) (ws : list Weapon.t)
    : list Weapon.t :=
  match ws !! l with
  | Some w => <[l := apply up w]> ws
  | None => ws
  end.

End Upgrade.

Definition UPGRADES : list Upgrade.t :=
  [ Upgrade.mk (Upgrade.damage 2) "+2 Weapon Damage" 6;
    Upgrade.mk (Upgrade.crit 0.05) "+5% Crit Chance" 5;
    Upgrade.mk (Upgrade.speed 1) "+1 Weapon Speed" 4 ].

(** ** Constructors *)

Definition create_hero (name : string) (weapon : loc) : Unit.t :=
  Unit.new name 30 8 2 0.1 6 true (Some weapon) 0.

Definition create_unit (template : Template.t) : Unit.t :=
  Unit.new (Template.name template) (Template.max_hp template)
           (Template.attack template) (Template.defense template)
           (Template.crit template) (Template.speed template)
           false None 0.

(** [team.units.append(create_unit(pick))]: the new object gets the next
    free location of the store. *)
Definition recruit (pick : Template.t) (team : Team.t) (us : list Unit.t)
    : Team.t * list Unit.t :=
  (Team.mk (Team.name team) (Team.units team ++ [length us]),
   us ++ [create_unit pick]).

(** ** The random generator

    The module-level generator of [random] is a source of draws: the
    [n]-th call made to it answers [randbelow n k] when an index below
    [k] is asked for, and [random n] when a float of the unit interval
    is asked for.  The number of calls made so far is threaded through
    the functions that draw. *)

Record RandomSource : Set := {
  randbelow : nat → nat → nat;
  random : nat → float
}.

(** [random.choice(seq)] for a sequence whose first element is [x0]. *)
Definition choice {A : Type} (rs : RandomSource) (call : nat)
    (x0 : A) (seq : list A) : A :=
  nth (Nat.modulo (randbelow rs call (length seq)) (length seq)) seq x0.

(** ** [fight_round] *)

(** [list.sort(key=..., reverse=True)] is the library's stable sort,
    descending: an element is put in front of the first one whose key is
    not above its own, so it stays ahead of equal keys that came after
    it. *)
Fixpoint insert_desc {A : Type} (key : A → Z) (x : A) (l : list A) : list A :=
  match l with
  | [] => [x]
  | y :: l' =>
      if key x <? key y then y :: insert_desc key x l' else x :: y :: l'
  end.

Definition sort_desc {A : Type} (key : A → Z) (l : list A) : list A :=
  foldr (insert_desc key) [] l.

(** [lambda unit: unit.effective_speed()] through a reference. *)
Definition speed_at (ws : list Weapon.t) (us : list Unit.t) (l : loc) : Z :=
  match us !! l with
  | Some u => Unit.effective_speed ws u
  | None => 0
  end.

(** Lines 204-205: the turn order of a round. *)
Definition fighters (ws : list Weapon.t) (us : list Unit.t)
    (player enemy : Team.t) : list loc :=
  sort_desc (speed_at ws us)
            (Team.alive_units us player ++ Team.alive_units us enemy).

(** [attacker in team.units]: some element is the same object, or an
    object equal to it. *)
Definition unit_in (ws : list Weapon.t) (us : list Unit.t)
    (attacker : loc) (units : list loc) : bool :=
  existsb (λ l,
      (l =? attacker)%nat
      || match us !! l, us !! attacker with
         | Some a, Some b => Unit.eqb ws a b
         | _, _ => false
         end)
    units.

(** [int(damage * 1.8)] *)
Definition crit_damage (damage : Z) : Py.exn + Z :=
  Py.bind (Py.float_of_int damage) (λ f, Py.int_of_float (f * 1.8)).

(** One attack of the round: who hit whom, the damage handed to
    [take_hit], what it returned, and the crit text (the printed line
    shows the two names, the returned amount and the crit text). *)
Record Hit : Set := {
  hit_attacker : loc;
  hit_target : loc;
  hit_damage : Z;
  hit_dealt : Z;
  hit_crit_text : string
}.

(** What the round works on: the unit store, the number of calls made to
    the generator, and the lines printed so far. *)
Record Arena : Set := {
  arena_units : list Unit.t;
  arena_calls : nat;
  arena_log : list Hit
}.

Inductive Flow : Set :=
| Next                      (* go on with the next fighter *)
| Break                     (* [break] *)
| Raise (e : Py.exn).

(** [dealt = target.take_hit(damage)] and the [print]. *)
Definition strike (attacker target : loc) (tgt : Unit.t) (damage : Z)
    (crit_text : string) (a : Arena) : Arena :=
  let '(tgt', dealt) := Unit.take_hit tgt damage in
  {| arena_units := <[target := tgt']> (arena_units a);
     arena_calls := arena_calls a;
     arena_log := arena_log a ++ [Build_Hit attacker target damage dealt crit_text] |}.

(** The body of [for attacker in fighters].  A reference outside the
    store does not arise; such a fighter is passed over. *)
Definition turn (rs : RandomSource) (ws : list Weapon.t)
    (player enemy : Team.t) (attacker : loc) (a : Arena) : Arena * Flow :=
  let us := arena_units a in
  match us !! attacker with
  | None => (a, Next)
  | Some att =>
      if negb (Unit.is_alive att) then (a, Next) else
      let targets :=
        if unit_in ws us attacker (Team.units player)
        then Team.alive_units us enemy
        else Team.alive_units us player in
      match targets with
      | [] => (a, Break)
      | t0 :: _ =>
          let target := choice rs (arena_calls a) t0 targets in
          let damage := Unit.effective_attack ws att in
          let roll := random rs (S (arena_calls a)) in
          let a1 := {| arena_units := us; arena_calls := 2 + arena_calls a;
                       arena_log := arena_log a |} in
          match us !! target with
          | None => (a1, Next)
          | Some tgt =>
              if PrimFloat.ltb roll (Unit.effective_crit ws att) then
                match crit_damage damage with
                | inl e => (a1, Raise e)
                | inr damage' =>
                    (strike attacker target tgt damage' " CRIT!" a1, Next)
                end
              else (strike attacker target tgt damage "" a1, Next)
          end
      end
  end.

Fixpoint fight_loop (rs : RandomSource) (ws : list Weapon.t)
    (player enemy : Team.t) (order : list loc) (a : Arena)
    : Arena * option Py.exn :=
  match order with
  | [] => (a, None)
  | attacker :: order' =>
      match turn rs ws player enemy attacker a with
      | (a', Next) => fight_loop rs ws player enemy order' a'
      | (a', Break) => (a', None)
      | (a', Raise e) => (a', Some e)
      end
  end.

(** Lines 223-232: the outcome, from the two alive counts. *)
Definition outcome (player_alive enemy_alive : nat) : string :=
  if ((enemy_alive =? 0) && (player_alive =? 0))%nat then "draw"
  else if (enemy_alive =? 0)%nat then "player"
  else if (player_alive =? 0)%nat then "enemy"
  else "continue".

(** [fight_round]: the arena after the round, and the returned string or
    the exception that ended the call. *)
Definition fight_round (rs : RandomSource) (ws : list Weapon.t)
    (player enemy : Team.t) (round_num : Z) (a : Arena)
    : Arena * (Py.exn + string) :=
  let order := fighters ws (arena_units a) player enemy in
  match fight_loop rs ws player enemy order a with
  | (a', Some e) => (a', inl e)
  | (a', None) =>
      let player_alive := length (Team.alive_units (arena_units a') player) in
      let enemy_alive := length (Team.alive_units (arena_units a') enemy) in
      (a', inr (outcome player_alive enemy_alive))
  end.

(** ** The shops

    [input()] takes the next line of [stdin] and raises [EOFError] when
    there is none; the fixed messages a shop prints are collected in
    [stdout] (the menus, which only display the state, are left out).
    The two tables are read by the functions when they are called; they
    are arguments here, [UNIT_CATALOG] and [UPGRADES] being the values
    the module gives them. *)

(** What a call of a shop leaves behind: the returned gold or the
    exception, the objects it may have changed, the unread input and the
    printed messages. *)
Record Shop (S : Type) : Type := {
  shop_result : Py.exn + Z;
  shop_state : S;
  shop_stdin : list string;
  shop_stdout : list string
}.
Arguments Build_Shop {S} _ _ _ _.
Arguments shop_result {S} _.
Arguments shop_state {S} _.
Arguments shop_stdin {S} _.
Arguments shop_stdout {S} _.

(** What one pass of a shop's [while True] found on its input line. *)
Inductive Choice (A : Type) : Type :=
| Done
| Invalid
| Pick (item : A).
Arguments Done {A}.
Arguments Invalid {A}.
Arguments Pick {A} item.

(** Lines 128-135 and 155-162: the line is stripped and lowered, ["d"]
    ends the shop, a number within [1..len(table)] picks an entry. *)
Definition read_choice {A : Type} (table : list A) (line : string)
    : Py.exn + Choice A :=
  let choice := Py.lower (Py.strip line) in
  if String.eqb choice "d" then inr Done
  else if negb (Py.isdigit choice)
          || negb ((1 <=? Py.int_of_str choice)
                   && (Py.int_of_str choice <=? Z.of_nat (length table)))
  then inr Invalid
  else match table !! Z.to_nat (Py.int_of_str choice - 1) with
       | Some item => inr (Pick item)
       | None => inl Py.IndexError
       end.

(** [run_prematch_shop(gold, team)]; the team object and the unit store
    are what it changes. *)
Fixpoint run_prematch_shop (catalog : list Template.t) (stdin : list string)
    (gold : Z) (team : Team.t) (us : list Unit.t) (stdout : list string)
    : Shop (Team.t * list Unit.t) :=
  if (MAX_UNITS <=? length (Team.units team))%nat then
    Build_Shop (inr gold) (team, us) stdin
               (stdout ++ ["Max units reached."%string])
  else
    match stdin with
    | [] => Build_Shop (inl Py.EOFError) (team, us) [] stdout
    | line :: stdin' =>
        match read_choice catalog line with
        | inl e => Build_Shop (inl e) (team, us) stdin' stdout
        | inr Done => Build_Shop (inr gold) (team, us) stdin' stdout
        | inr Invalid =>
            run_prematch_shop catalog stdin' gold team us
                              (stdout ++ ["Invalid choice."%string])
        | inr (Pick pick) =>
            if gold <? Template.cost pick then
              run_prematch_shop catalog stdin' gold team us
                                (stdout ++ ["Not enough gold."%string])
            else
              let '(team', us') := recruit pick team us in
              run_prematch_shop catalog stdin' (gold - Template.cost pick)
                                team' us' stdout
        end
    end.

(** [run_upgrade_shop(gold, weapon, owner)]; the weapon object, in the
    weapon store, is what it changes. *)
Fixpoint run_upgrade_shop (upgrades : list Upgrade.t) (stdin : list string)
    (gold : Z) (weapon : loc) (owner : string) (ws : list Weapon.t)
    (stdout : list string) : Shop (list Weapon.t) :=
  match stdin with
  | [] => Build_Shop (inl Py.EOFError) ws [] stdout
  | line :: stdin' =>
      match read_choice upgrades line with
      | inl e => Build_Shop (inl e) ws stdin' stdout
      | inr Done => Build_Shop (inr gold) ws stdin' stdout
      | inr Invalid =>
          run_upgrade_shop upgrades stdin' gold weapon owner ws
                           (stdout ++ ["Invalid choice."%string])
      | inr (Pick upgrade) =>
          if gold <? Upgrade.cost upgrade then
            run_upgrade_shop upgrades stdin' gold weapon owner ws
                             (stdout ++ ["Not enough gold."%string])
          else
            run_upgrade_shop upgrades stdin' (gold - Upgrade.cost upgrade)
                             weapon owner
                             (Upgrade.apply_at upgrade weapon ws) stdout
      end
  end.

(** ** The automated buyer *)

(** What a call of the automated buyer leaves behind: the returned gold
    or the exception, the objects it may have changed, and the number of
    calls made to the generator. *)
Record Bought (S : Type) : Type := {
  bought_result : Py.exn + Z;
  bought_state : S;
  bought_calls : nat
}.
Arguments Build_Bought {S} _ _ _.
Arguments bought_result {S} _.
Arguments bought_state {S} _.
Arguments bought_calls {S} _.

(** [min(unit["cost"] for unit in choices)] *)
Definition min_cost (choices : list Template.t) : Py.exn + Z :=
  match choices with
  | [] => inl Py.ValueError
  | c :: cs =>
      inr (foldl (λ m t, Z.min m (Template.cost t)) (Template.cost c) cs)
  end.

(** [ai_buy_units(gold, team)].  The loop draws again whenever the drawn
    unit costs too much, so the code puts no bound on the number of
    passes; [fuel] bounds it here, and [None] means the bound was reached
    with the loop still running. *)
Fixpoint ai_buy_units (fuel : nat) (catalog : list Template.t)
    (rs : RandomSource) (calls : nat) (gold : Z) (team : Team.t)
    (us : list Unit.t) : option (Bought (Team.t * list Unit.t)) :=
  match min_cost catalog, catalog with
  | inr lowest, c0 :: _ =>
      if (lowest <=? gold) && (length (Team.units team) <? MAX_UNITS)%nat then
        match fuel with
        | O => None
        | S fuel' =>
            let pick := choice rs calls c0 catalog in
            if gold <? Template.cost pick then
              ai_buy_units fuel' catalog rs (S calls) gold team us
            else
              let '(team', us') := recruit pick team us in
              ai_buy_units fuel' catalog rs (S calls)
                           (gold - Template.cost pick) team' us'
        end
      else Some (Build_Bought (inr gold) (team, us) calls)
  | inl e, _ => Some (Build_Bought (inl e) (team, us) calls)
  | _, [] => Some (Build_Bought (inl Py.ValueError) (team, us) calls)
  end.

(** [ai_upgrade_weapon(gold, weapon)] *)
Definition ai_upgrade_weapon (upgrades : list Upgrade.t) (rs : RandomSource)
    (calls : nat) (gold : Z) (weapon : loc) (ws : list Weapon.t)
    : Bought (list Weapon.t) :=
  let affordable := filter (λ u, Upgrade.cost u ≤ gold) upgrades in
  match affordable with
  | [] => Build_Bought (inr gold) ws calls
  | u0 :: _ =>
      let upgrade := choice rs calls u0 affordable in
      Build_Bought (inr (gold - Upgrade.cost upgrade))
                   (Upgrade.apply_at upgrade weapon ws) (S calls)
  end.

(** ** [main] *)

(** The state of a match between two passes of the [while True] loop:
    the two stores, the two team objects, the local variables of [main],
    the number of calls made to the generator and the unread input.
    [player_weapon] and [enemy_weapon] are the first two objects of the
    weapon store. *)
Record Match : Set := {
  match_units : list Unit.t;
  match_weapons : list Weapon.t;
  player_team : Team.t;
  enemy_team : Team.t;
  player_gold : Z;
  enemy_gold : Z;
  round_num : Z;
  match_calls : nat;
  match_stdin : list string
}.

Definition player_weapon : loc := 0%nat.
Definition enemy_weapon : loc := 1%nat.

(** Lines 250-262, up to the loop.  [None]: the automated buyer ran out
    of [fuel]. *)
Definition begin_match (fuel : nat) (rs : RandomSource) (stdin : list string)
    : option (Py.exn + Match) :=
  let ws := [Weapon.new; Weapon.new] in
  let us := [create_hero "Hero" player_weapon;
             create_hero "Warlord" enemy_weapon] in
  let shop := run_prematch_shop UNIT_CATALOG stdin START_GOLD
                                (Team.mk "Player" [0%nat]) us [] in
  match shop_result shop with
  | inl e => Some (inl e)
  | inr player_gold =>
      let '(player_team, us) := shop_state shop in
      match ai_buy_units fuel UNIT_CATALOG rs 0 START_GOLD
                         (Team.mk "Enemy" [1%nat]) us with
      | None => None
      | Some bought =>
          match bought_result bought with
          | inl e => Some (inl e)
          | inr enemy_gold =>
              let '(enemy_team, us) := bought_state bought in
              Some (inr {| match_units := us; match_weapons := ws;
                           player_team := player_team;
                           enemy_team := enemy_team;
                           player_gold := player_gold;
                           enemy_gold := enemy_gold;
                           round_num := 1;
                           match_calls := bought_calls bought;
                           match_stdin := shop_stdin shop |})
          end
      end
  end.

Inductive Status : Set :=
| Running                      (* the loop goes round again *)
| Over (result : string)       (* [break]: "player", "enemy" or "draw" *)
| Crashed (e : Py.exn).        (* an exception left [main] *)

(** Lines 278-283: the income, the two upgrade calls and the round
    counter, after a round that returned "continue". *)
Definition economy_phase (rs : RandomSource) (m : Match) : Match * Status :=
  let player_gold := player_gold m + (ROUND_INCOME + 2) in
  let enemy_gold := enemy_gold m + (ROUND_INCOME + 2) in
  let shop := run_upgrade_shop UPGRADES (match_stdin m) player_gold
                               player_weapon "Player" (match_weapons m) [] in
  let m' := {| match_units := match_units m;
               match_weapons := shop_state shop;
               player_team := player_team m; enemy_team := enemy_team m;
               player_gold := player_gold; enemy_gold := enemy_gold;
               round_num := round_num m;
               match_calls := match_calls m;
               match_stdin := shop_stdin shop |} in
  match shop_result shop with
  | inl e => (m', Crashed e)
  | inr player_gold =>
      let bought := ai_upgrade_weapon UPGRADES rs (match_calls m) enemy_gold
                                      enemy_weapon (shop_state shop) in
      match bought_result bought with
      | inl e => (m', Crashed e)
      | inr enemy_gold =>
          ({| match_units := match_units m;
              match_weapons := bought_state bought;
              player_team := player_team m; enemy_team := enemy_team m;
              player_gold := player_gold; enemy_gold := enemy_gold;
              round_num := round_num m + 1;
              match_calls := bought_calls bought;
              match_stdin := shop_stdin shop |}, Running)
      end
  end.

(** One pass of the [while True] loop, lines 264-283. *)
Definition play_round (rs : RandomSource) (m : Match) : Match * Status :=
  let '(a, r) :=
    fight_round rs (match_weapons m) (player_team m) (enemy_team m)
                (round_num m)
                {| arena_units := match_units m;
                   arena_calls := match_calls m; arena_log := [] |} in
  let m' := {| match_units := arena_units a;
               match_weapons := match_weapons m;
               player_team := player_team m; enemy_team := enemy_team m;
               player_gold := player_gold m; enemy_gold := enemy_gold m;
               round_num := round_num m;
               match_calls := arena_calls a;
               match_stdin := match_stdin m |} in
  match r with
  | inl e => (m', Crashed e)
  | inr result =>
      if String.eqb result "player" || String.eqb result "enemy"
         || String.eqb result "draw"
      then (m', Over result)
      else economy_phase rs m'
  end.

(** The states a run of [main] goes through: the one the loop is entered
    with, and the one each pass leaves. *)
Inductive reachable (rs : RandomSource) : Match → Status → Prop :=
| reach_begin fuel stdin m :
    begin_match fuel rs stdin = Some (inr m) →
    reachable rs m Running
| reach_round m m' st :
    reachable rs m Running →
    play_round rs m = (m', st) →
    reachable rs m' st.

(** [main], for at most [fuel] passes of its loop (and [fuel] passes of
    the automated buyer's). *)
Fixpoint main_loop (fuel : nat) (rs : RandomSource) (m : Match)
    : option (Match * Status) :=
  match fuel with
  | O => None
  | S fuel' =>
      match play_round rs m with
      | (m', Running) => main_loop fuel' rs m'
      | end_of_match => Some end_of_match
      end
  end.


(** ** [prompt_choice] *)



(** ** The displays

    What the shops and [main] print to show the state: the two menus
    and [display_team].  The functions above leave these lines out;
    they are embedded here on their own, with the one computation in
    them that can raise, [int(crit * 100)]. *)


(** [int(crit * 100)], the percentage that the menus and [display_team]
    show for a crit chance. *)
Definition crit_percent (crit : float) : Py.exn + Z :=
  Py.int_of_float (crit * 100).








(** ** Predicates of the statements *)

(** Everything but the health is left as it was. *)
Definition same_stats (u u' : Unit.t) : Prop :=
  Unit.name u' = Unit.name u ∧ Unit.max_hp u' = Unit.max_hp u
  ∧ Unit.attack u' = Unit.attack u ∧ Unit.defense u' = Unit.defense u
  ∧ Unit.crit u' = Unit.crit u ∧ Unit.speed u' = Unit.speed u
  ∧ Unit.is_hero u' = Unit.is_hero u ∧ Unit.weapon u' = Unit.weapon u.

(** The health invariant of a unit. *)
Definition healthy (u : Unit.t) : Prop := 0 ≤ Unit.hp u ≤ Unit.max_hp u.

(** [u'] is [u] later on: the same unit, with no more health. *)
Definition worn_down (u u' : Unit.t) : Prop :=
  same_stats u u' ∧ Unit.hp u' ≤ Unit.hp u.

(** The crit damage of a unit can be computed: [int(damage * 1.8)] does
    not raise on its effective attack. *)
Definition crit_defined (ws : list Weapon.t) (u : Unit.t) : Prop :=
  ∃ d, crit_damage (Unit.effective_attack ws u) = inr d.

(** A float is at most 0.75. *)
Definition capped (f : float) : Prop := PrimFloat.leb f 0.75 = true.

(** The ways a turn can go.  [Idle]: the attacker is passed over, or the
    round is broken off, and nothing has changed.  [Failed]: the two
    draws were made and the crit damage could not be computed.
    [Struck]: the two draws were made and an alive target was hit. *)
Inductive TurnCase (rs : RandomSource) (ws : list Weapon.t)
    (attacker : loc) (a : Arena) : Arena * Flow → Prop :=
| Idle flow : flow = Next ∨ flow = Break → TurnCase rs ws attacker a (a, flow)
| Failed att e :
    arena_units a !! attacker = Some att →
    PrimFloat.ltb (random rs (S (arena_calls a)))
                  (Unit.effective_crit ws att) = true →
    crit_damage (Unit.effective_attack ws att) = inl e →
    TurnCase rs ws attacker a
      ({| arena_units := arena_units a; arena_calls := 2 + arena_calls a;
          arena_log := arena_log a |}, Raise e)
| Struck att target tgt damage text :
    arena_units a !! attacker = Some att →
    Unit.is_alive att = true →
    arena_units a !! target = Some tgt →
    Unit.is_alive tgt = true →
    (if PrimFloat.ltb (random rs (S (arena_calls a)))
                      (Unit.effective_crit ws att)
     then crit_damage (Unit.effective_attack ws att) = inr damage
          ∧ text = " CRIT!"%string
     else damage = Unit.effective_attack ws att ∧ text = ""%string) →
    TurnCase rs ws attacker a
      (strike attacker target tgt damage text
         {| arena_units := arena_units a; arena_calls := 2 + arena_calls a;
            arena_log := arena_log a |}, Next).

(** A printed hit is in order with respect to unit store [us]: its
    damage is the attacker's effective attack, or the crit damage of that
    attack when the line says so, and the amount dealt is what
    [take_hit] makes of exactly that damage on the target. *)
Definition fair_hit (ws : list Weapon.t) (us : list Unit.t) (h : Hit) : Prop :=
  ∃ att tgt,
    us !! hit_attacker h = Some att
    ∧ us !! hit_target h = Some tgt
    ∧ (hit_damage h = Unit.effective_attack ws att
       ∧ hit_crit_text h = ""%string
       ∨ crit_damage (Unit.effective_attack ws att) = inr (hit_damage h)
         ∧ hit_crit_text h = " CRIT!"%string)
    ∧ hit_dealt h = Z.max 1 (hit_damage h - Unit.defense tgt).



(** The crit bonus of a weapon, and the effective crit of a unit, are at
    most 0.75. *)
Definition capped_weapon (w : Weapon.t) : Prop := capped (Weapon.crit_bonus w).

Definition capped_unit (ws : list Weapon.t) (u : Unit.t) : Prop :=
  capped (Unit.effective_crit ws u).

(** What holds of a match all along. *)
Record sound (m : Match) : Prop := {
  sound_health : Forall healthy (match_units m);
  sound_crit : Forall (capped_unit (match_weapons m)) (match_units m);
  sound_weapons : Forall capped_weapon (match_weapons m);
  sound_armoury : length (match_weapons m) = 2%nat;
  sound_player_gold : 0 ≤ player_gold m;
  sound_enemy_gold : 0 ≤ enemy_gold m
}.

(** A unit at its full health. *)
Definition fresh (u : Unit.t) : Prop := Unit.hp u = Unit.max_hp u.

(** The two orders of a sort by [key]: [x] may come before [y]. *)
Definition descending {A : Type} (key : A → Z) (x y : A) : Prop :=
  key y ≤ key x.

Definition strictly_descending {A : Type} (key : A → Z) (x y : A) : Prop :=
  key y < key x.

(** The generator draws a cheapest unit of the catalog at least once in
    any [k] draws in a row. *)
Definition patient (rs : RandomSource) (catalog : list Template.t) (k : nat)
    : Prop :=
  ∀ call, ∃ j, (j < k)%nat
    ∧ match catalog with
      | c0 :: _ =>
          min_cost catalog
          = inr (Template.cost (choice rs (call + j) c0 catalog))
      | [] => True
      end.

(** The gold that a list of units, or of upgrades, costs. *)
Definition total_cost (picks : list Template.t) : Z :=
  foldr (λ t sum, Template.cost t + sum) 0 picks.

Definition total_price (ups : list Upgrade.t) : Z :=
  foldr (λ up sum, Upgrade.cost up + sum) 0 ups.

(** A list of upgrades, made one after the other on the weapon behind
    [weapon]. *)
Definition upgraded (weapon : loc) (ups : list Upgrade.t)
    (ws : list Weapon.t) : list Weapon.t :=
  foldl (λ ws' up, Upgrade.apply_at up weapon ws') ws ups.

(** What a unit shop has made of gold [gold], team [team] and unit store
    [us] once it has recruited [picks], in this order. *)
Definition recruited (catalog : list Template.t) (gold : Z) (team : Team.t)
    (us : list Unit.t) (picks : list Template.t)
    (gold' : Z) (team' : Team.t) (us' : list Unit.t) : Prop :=
  Forall (λ pick, pick ∈ catalog) picks
  ∧ us' = us ++ (create_unit <$> picks)
  ∧ Team.units team' = Team.units team ++ seq (length us) (length picks)
  ∧ Team.name team' = Team.name team
  ∧ gold' = gold - total_cost picks
  ∧ (length (Team.units team')
     ≤ Nat.max MAX_UNITS (length (Team.units team)))%nat.

(** The health of all the units of a store, added up. *)
Definition total_health (us : list Unit.t) : Z :=
  foldr (λ u sum, Unit.hp u + sum) 0 us.

(** The units that [turn] offers as targets to [attacker]. *)
Definition targets_of (ws : list Weapon.t) (us : list Unit.t)
    (player enemy : Team.t) (attacker : loc) : list loc :=
  if unit_in ws us attacker (Team.units player)
  then Team.alive_units us enemy
  else Team.alive_units us player.


(** The crit bonus of a weapon that was made by [Weapon()] and has had
    [n] crit upgrades of the table since. *)
Definition crit_steps (n : nat) : float :=
  Nat.iter n (λ bonus, Py.fmin 0.75 (bonus + 0.05)) 0%float.

(** The number of crit upgrades in a list of upgrades. *)
Definition is_crit (up : Upgrade.t) : bool :=
  match Upgrade.key up with
  | Upgrade.crit _ => true
  | _ => false
  end.

Definition crit_count (ups : list Upgrade.t) : nat :=
  length (filter (λ up, is_crit up) ups).

(** A text of blanks only. *)
Definition blank (s : string) : Prop :=
  Forall (λ c, Py.isspace c = true) (list_ascii_of_string s).



(** ** Sample values *)

Definition swordsman : Unit.t :=
  create_unit (Template.mk "Swordsman" 4 24 7 2 0.05 5).

Definition archer : Unit.t :=
  create_unit (Template.mk "Archer" 5 18 9 1 0.10 7).

(** A swordsman brought down by one heavy hit. *)
Definition fallen_swordsman : Unit.t := (Unit.take_hit swordsman 26).1.

(** A generator that always draws the first index and the float 0.5. *)
Definition steady : RandomSource :=
  {| randbelow := λ _ _, 0%nat; random := λ _, 0.5%float |}.

(** A swordsman on the player side against an archer on the enemy side,
    and the same with the swordsman down. *)
Definition side_a : Team.t := Team.mk "Player" [0%nat].
Definition side_b : Team.t := Team.mk "Enemy" [1%nat].
Definition duel : Arena :=
  {| arena_units := [swordsman; archer]; arena_calls := 0; arena_log := [] |}.
Definition duel_lost : Arena :=
  {| arena_units := [fallen_swordsman; archer]; arena_calls := 0;
     arena_log := [] |}.

(** An upgrade table with one upgrade that costs 30. *)
Definition costly_table : list Upgrade.t :=
  [ Upgrade.mk (Upgrade.damage 10) "+10 Weapon Damage" 30 ].

(** * Properties *)

(** ** [take_hit] *)

Lemma take_hit_dealt (u : Unit.t) (raw : Z) :
  (Unit.take_hit u raw).2 = Z.max 1 (raw - Unit.defense u).
Proof. reflexivity. Qed.

Lemma take_hit_hp (u : Unit.t) (raw : Z) :
  Unit.hp (Unit.take_hit u raw).1
  = Z.max 0 (Unit.hp u - Z.max 1 (raw - Unit.defense u)).
Proof. reflexivity. Qed.

Lemma take_hit_same_stats (u : Unit.t) (raw : Z) :
  same_stats u (Unit.take_hit u raw).1.
Proof. repeat split. Qed.

(** C1: for every unit and every raw damage (non-negative or not),
    [take_hit] returns max(1, raw - defense), which is at least 1 however
    large the defense is and is raw - defense as soon as that is
    positive; the health becomes the old health minus that amount,
    floored at 0; no other field changes. *)
Theorem take_hit_spec (u : Unit.t) (raw_damage : Z) :
  let u' := (Unit.take_hit u raw_damage).1 in
  let dealt := (Unit.take_hit u raw_damage).2 in
  dealt = Z.max 1 (raw_damage - Unit.defense u)
  ∧ 1 ≤ dealt
  ∧ (1 ≤ raw_damage - Unit.defense u → dealt = raw_damage - Unit.defense u)
  ∧ (raw_damage ≤ Unit.defense u → dealt = 1)
  ∧ Unit.hp u' = Z.max 0 (Unit.hp u - dealt)
  ∧ (dealt ≤ Unit.hp u → Unit.hp u' = Unit.hp u - dealt)
  ∧ (Unit.hp u ≤ dealt → Unit.hp u' = 0)
  ∧ same_stats u u'.
Proof.
  cbv zeta. rewrite take_hit_dealt, take_hit_hp.
  repeat split; lia.
Qed.

Lemma take_hit_spec_witness :
  1 ≤ 9 - Unit.defense swordsman
  ∧ (Unit.take_hit swordsman 9).2 = 9 - Unit.defense swordsman
  ∧ (Unit.take_hit swordsman 9).2 ≤ Unit.hp swordsman
  ∧ Unit.hp (Unit.take_hit swordsman 9).1
    = Unit.hp swordsman - (Unit.take_hit swordsman 9).2.
Proof.
  assert (1 ≤ 9 - Unit.defense swordsman) as Hraw by (by vm_compute).
  assert ((Unit.take_hit swordsman 9).2 ≤ Unit.hp swordsman) as Hhp
    by (by vm_compute).
  destruct (take_hit_spec swordsman 9) as (_ & _ & Hdealt & _ & _ & Hleft & _).
  split; [exact Hraw|]. split; [exact (Hdealt Hraw)|].
  split; [exact Hhp|exact (Hleft Hhp)].
Defined.

(** C9, as the claim has it, fails: a second hit on a swordsman whose
    health is already 0 returns 5. *)
Lemma take_hit_dead_positive :
  Unit.hp fallen_swordsman = 0
  ∧ (Unit.take_hit fallen_swordsman 7).2 = 5
  ∧ ¬ (Unit.take_hit fallen_swordsman 7).2 ≤ 0.
Proof. repeat split. intros H. vm_compute in H. by apply H. Qed.

(** C9, amended: a hit on a unit whose health is 0 leaves the unit as it
    is, and still returns max(1, raw - defense), which is at least 1:
    the call is neither rejected nor answered with 0. *)
Theorem take_hit_dead (u : Unit.t) (raw_damage : Z) :
  Unit.hp u = 0 →
  (Unit.take_hit u raw_damage).1 = u
  ∧ (Unit.take_hit u raw_damage).2 = Z.max 1 (raw_damage - Unit.defense u)
  ∧ 1 ≤ (Unit.take_hit u raw_damage).2.
Proof.
  intros Hdead. split; [| split; [reflexivity | rewrite take_hit_dealt; lia]].
  destruct u as [n m a d c s h w p]. simpl in Hdead. subst p.
  unfold Unit.take_hit. simpl. f_equal. lia.
Qed.

Lemma take_hit_dead_witness :
  (Unit.take_hit fallen_swordsman 7).1 = fallen_swordsman
  ∧ (Unit.take_hit fallen_swordsman 7).2
    = Z.max 1 (7 - Unit.defense fallen_swordsman)
  ∧ 1 ≤ (Unit.take_hit fallen_swordsman 7).2.
Proof. apply (take_hit_dead fallen_swordsman 7). reflexivity. Defined.

(** ** The stable descending sort *)

Section sort_desc.
Context {A : Type} (key : A → Z).

Lemma insert_desc_perm (x : A) (l : list A) :
  insert_desc key x l ≡ₚ x :: l.
Proof.
  induction l as [|y l IH]; simpl; [done|].
  destruct (key x <? key y); [|done].
  rewrite IH. apply Permutation_swap.
Qed.

Lemma sort_desc_perm (l : list A) : sort_desc key l ≡ₚ l.
Proof.
  induction l as [|x l IH]; simpl; [done|].
  unfold sort_desc in *. simpl. by rewrite insert_desc_perm, IH.
Qed.

Lemma insert_desc_sorted (x : A) (l : list A) :
  StronglySorted (descending key) l →
  StronglySorted (descending key) (insert_desc key x l).
Proof.
  induction 1 as [|y l Hl IH Hy]; simpl.
  - repeat constructor.
  - destruct (key x <? key y) eqn:E.
    + apply Z.ltb_lt in E. constructor; [done|].
      rewrite insert_desc_perm. constructor; [unfold descending; lia | done].
    + apply Z.ltb_ge in E. constructor; [by constructor|].
      constructor; [done|].
      eapply Forall_impl; [exact Hy|]. unfold descending. intros; lia.
Qed.

Lemma sort_desc_sorted (l : list A) : StronglySorted (descending key) (sort_desc key l).
Proof.
  induction l as [|x l IH]; [constructor|].
  by apply insert_desc_sorted.
Qed.

(** Stability: among the elements of one key, [x] is put first. *)
Lemma insert_desc_filter (s : Z) (x : A) (l : list A) :
  filter (λ y, key y = s) (insert_desc key x l)
  = filter (λ y, key y = s) (x :: l).
Proof.
  induction l as [|y l IH]; simpl; [done|].
  destruct (key x <? key y) eqn:E; [|done].
  apply Z.ltb_lt in E.
  rewrite (filter_cons _ y), IH, !(filter_cons _ x), (filter_cons _ y).
  repeat case_decide; try done; lia.
Qed.

Lemma sort_desc_filter (s : Z) (l : list A) :
  filter (λ y, key y = s) (sort_desc key l) = filter (λ y, key y = s) l.
Proof.
  induction l as [|x l IH]; [done|].
  change (sort_desc key (x :: l)) with (insert_desc key x (sort_desc key l)).
  by rewrite insert_desc_filter, !(filter_cons _ x), IH.
Qed.

Lemma key_inj_on (l : list A) (x y : A) :
  NoDup (key <$> l) → x ∈ l → y ∈ l → key x = key y → x = y.
Proof.
  induction l as [|z l IH]; simpl; [by inversion 2|].
  rewrite NoDup_cons, !elem_of_cons.
  intros [Hz Hl] [->|Hx] [->|Hy] Hk; [done| | |by apply IH].
  - destruct Hz. rewrite Hk. by apply list_elem_of_fmap_2.
  - destruct Hz. rewrite <-Hk. by apply list_elem_of_fmap_2.
Qed.

Lemma sorted_distinct_strict (l : list A) :
  NoDup (key <$> l) → StronglySorted (descending key) l → StronglySorted (strictly_descending key) l.
Proof.
  induction 2 as [|x l Hl IH Hx]; [constructor|].
  simpl in *. apply NoDup_cons in H as [Hx' Hl'].
  constructor; [by apply IH|].
  apply Forall_forall. intros y Hy.
  rewrite Forall_forall in Hx. specialize (Hx y Hy).
  unfold descending, strictly_descending in *.
  assert (key y ≠ key x); [|lia].
  intros Hk. apply Hx'. rewrite <-Hk. by apply list_elem_of_fmap_2.
Qed.

(** With distinct keys there is one descending arrangement only. *)
Lemma sort_desc_unique (l l' : list A) :
  NoDup (key <$> l) → l' ≡ₚ l → StronglySorted (descending key) l' →
  l' = sort_desc key l.
Proof.
  intros Hnd Hp Hs.
  apply (StronglySorted_unique_strong (descending key)); [|done|apply sort_desc_sorted|].
  - intros x y Hx Hy H1 H2. apply (key_inj_on l); [done|..].
    + by rewrite <-Hp.
    + by rewrite <-(sort_desc_perm l).
    + unfold descending in *. lia.
  - by rewrite sort_desc_perm.
Qed.

End sort_desc.

(** ** The turn order of a round *)

(** C3: the turn order of [fight_round] is the stable descending sort, by
    effective speed, of the alive player units followed by the alive
    enemy units.  It is a rearrangement of that line, descending; the
    units of any one speed come in the order of the line (player units
    in roster order, then enemy units in roster order); and when the
    speeds are pairwise distinct it is strictly descending and is the
    only descending arrangement of the line. *)
Theorem fighters_order (ws : list Weapon.t) (us : list Unit.t)
    (player enemy : Team.t) :
  let key := speed_at ws us in
  let line := Team.alive_units us player ++ Team.alive_units us enemy in
  let order := fighters ws us player enemy in
  order = sort_desc key line
  ∧ order ≡ₚ line
  ∧ StronglySorted (descending key) order
  ∧ (∀ s : Z,
       filter (λ l, key l = s) order
       = filter (λ l, key l = s) (Team.alive_units us player)
         ++ filter (λ l, key l = s) (Team.alive_units us enemy))
  ∧ (NoDup (key <$> line) →
       StronglySorted (strictly_descending key) order
       ∧ ∀ order', order' ≡ₚ line →
           StronglySorted (descending key) order' → order' = order).
Proof.
  intros key line order. unfold order, fighters. fold key. fold line.
  split; [done|]. split; [apply sort_desc_perm|].
  split; [apply sort_desc_sorted|].
  split.
  - intros s. rewrite sort_desc_filter. apply filter_app.
  - intros Hnd. split.
    + apply sorted_distinct_strict; [|apply sort_desc_sorted].
      by rewrite sort_desc_perm.
    + intros order' Hp Hs. by apply sort_desc_unique.
Qed.

Lemma fighters_order_witness :
  NoDup (speed_at [] [swordsman; archer]
           <$> Team.alive_units [swordsman; archer] (Team.mk "Player" [0%nat])
               ++ Team.alive_units [swordsman; archer] (Team.mk "Enemy" [1%nat]))
  ∧ StronglySorted (strictly_descending (speed_at [] [swordsman; archer]))
      (fighters [] [swordsman; archer]
                (Team.mk "Player" [0%nat]) (Team.mk "Enemy" [1%nat])).
Proof.
  assert (Hnd : NoDup (speed_at [] [swordsman; archer]
           <$> Team.alive_units [swordsman; archer] (Team.mk "Player" [0%nat])
               ++ Team.alive_units [swordsman; archer] (Team.mk "Enemy" [1%nat]))).
  { apply (bool_decide_unpack _). by vm_compute. }
  split; [exact Hnd|].
  exact (proj1 (proj2 (proj2 (proj2 (proj2
    (fighters_order [] [swordsman; archer]
       (Team.mk "Player" [0%nat]) (Team.mk "Enemy" [1%nat]))))) Hnd)).
Defined.

(** ** One turn of a round *)

Lemma choice_elem_of {A : Type} (rs : RandomSource) (call : nat) (x0 : A)
    (seq : list A) :
  seq ≠ [] → choice rs call x0 seq ∈ seq.
Proof.
  intros Hne. unfold choice.
  assert (0 < length seq)%nat as Hlen by (destruct seq; simpl; [done|lia]).
  destruct (nth_lookup_or_length seq
              (Nat.modulo (randbelow rs call (length seq)) (length seq)) x0)
    as [Hin|Hout].
  - by eapply list_elem_of_lookup_2.
  - pose proof (Nat.mod_upper_bound (randbelow rs call (length seq))
                                    (length seq)). lia.
Qed.

Lemma alive_units_alive (us : list Unit.t) (tm : Team.t) (l : loc) :
  l ∈ Team.alive_units us tm →
  l ∈ Team.units tm
  ∧ ∃ u, us !! l = Some u ∧ Unit.is_alive u = true.
Proof.
  unfold Team.alive_units. rewrite list_elem_of_filter.
  unfold Team.alive_at. intros [Halive Hin]. split; [done|].
  destruct (us !! l) as [u|]; [|done].
  exists u. split; [done|]. by apply Is_true_true.
Qed.

Lemma worn_down_refl (u : Unit.t) : worn_down u u.
Proof. repeat split. lia. Qed.

Lemma worn_down_trans (u1 u2 u3 : Unit.t) :
  worn_down u1 u2 → worn_down u2 u3 → worn_down u1 u3.
Proof.
  unfold worn_down, same_stats. intros H12 H23.
  destruct_and!. repeat split; try congruence. lia.
Qed.

Lemma take_hit_worn_down (u : Unit.t) (raw : Z) :
  0 ≤ Unit.hp u → worn_down u (Unit.take_hit u raw).1.
Proof.
  intros Hhp. split; [apply take_hit_same_stats|].
  rewrite take_hit_hp. lia.
Qed.

Lemma take_hit_healthy (u : Unit.t) (raw : Z) :
  healthy u → healthy (Unit.take_hit u raw).1.
Proof. unfold healthy. rewrite take_hit_hp. simpl. lia. Qed.

Lemma aged_refl (us : list Unit.t) : Forall2 worn_down us us.
Proof. apply Forall_Forall2_diag, Forall_forall. intros; apply worn_down_refl. Qed.

Lemma aged_trans (us1 us2 us3 : list Unit.t) :
  Forall2 worn_down us1 us2 → Forall2 worn_down us2 us3 →
  Forall2 worn_down us1 us3.
Proof.
  intros H12. revert us3. induction H12; inversion 1; subst; constructor;
    eauto using worn_down_trans.
Qed.

(** What [strike] does to the arena. *)
Lemma strike_units (attacker target : loc) (tgt : Unit.t) (damage : Z)
    (text : string) (a : Arena) :
  arena_units (strike attacker target tgt damage text a)
  = <[target := (Unit.take_hit tgt damage).1]> (arena_units a).
Proof. reflexivity. Qed.

Lemma strike_log (attacker target : loc) (tgt : Unit.t) (damage : Z)
    (text : string) (a : Arena) :
  arena_log (strike attacker target tgt damage text a)
  = arena_log a
    ++ [Build_Hit attacker target damage (Unit.take_hit tgt damage).2 text].
Proof. reflexivity. Qed.

Lemma turn_cases (rs : RandomSource) (ws : list Weapon.t)
    (player enemy : Team.t) (attacker : loc) (a : Arena) :
  TurnCase rs ws attacker a (turn rs ws player enemy attacker a).
Proof.
  unfold turn.
  destruct (arena_units a !! attacker) as [att|] eqn:Hatt;
    [|destruct a; apply Idle; by left].
  destruct (Unit.is_alive att) eqn:Halive; simpl;
    [|destruct a; apply Idle; by left].
  set (targets := if unit_in ws (arena_units a) attacker (Team.units player)
                  then Team.alive_units (arena_units a) enemy
                  else Team.alive_units (arena_units a) player).
  destruct targets as [|t0 targets'] eqn:Htargets;
    [destruct a; apply Idle; by right|].
  set (target := choice rs (arena_calls a) t0 (t0 :: targets')).
  assert (target ∈ t0 :: targets') as Hin by (by apply choice_elem_of).
  assert (∃ tgt, arena_units a !! target = Some tgt
                 ∧ Unit.is_alive tgt = true) as (tgt & Htgt & Htgt_alive).
  { rewrite <-Htargets in Hin. subst targets.
    destruct (unit_in _ _ _ _);
      by apply alive_units_alive in Hin as [_ ?]. }
  rewrite Htgt.
  destruct (PrimFloat.ltb _ _) eqn:Hroll.
  - destruct (crit_damage _) as [e|damage] eqn:Hcrit.
    + by eapply Failed.
    + eapply Struck; eauto. by rewrite Hroll.
  - eapply Struck; eauto. by rewrite Hroll.
Qed.

(** Case analysis on a turn. *)
Ltac turn_cases rs ws player enemy attacker a :=
  generalize (turn_cases rs ws player enemy attacker a);
  generalize (turn rs ws player enemy attacker a);
  let r := fresh "r" in
  let H := fresh "H" in
  intros r H; destruct H as
    [flow Hflow
    |att e Hatt Hroll Hcrit
    |att target tgt damage text Hatt Hatt_alive Htgt Htgt_alive Hrule];
  simpl.

Lemma same_stats_attack (ws : list Weapon.t) (u u' : Unit.t) :
  same_stats u u' →
  Unit.effective_attack ws u' = Unit.effective_attack ws u.
Proof.
  unfold same_stats, Unit.effective_attack, Unit.armed.
  intros H. destruct_and!. by repeat match goal with E : _ = _ |- _ => rewrite E; clear E end.
Qed.

Lemma same_stats_crit (ws : list Weapon.t) (u u' : Unit.t) :
  same_stats u u' →
  Unit.effective_crit ws u' = Unit.effective_crit ws u.
Proof.
  unfold same_stats, Unit.effective_crit, Unit.armed.
  intros H. destruct_and!. by repeat match goal with E : _ = _ |- _ => rewrite E; clear E end.
Qed.

Lemma is_alive_pos (u : Unit.t) : Unit.is_alive u = true ↔ 0 < Unit.hp u.
Proof. unfold Unit.is_alive. apply Z.ltb_lt. Qed.

Lemma hit_aged (us : list Unit.t) (target : loc) (tgt : Unit.t) (damage : Z) :
  us !! target = Some tgt → Unit.is_alive tgt = true →
  Forall2 worn_down us (<[target := (Unit.take_hit tgt damage).1]> us).
Proof.
  intros Htgt Halive.
  rewrite <-(list_insert_id us target tgt) at 1 by done.
  apply Forall2_insert; [apply aged_refl|].
  apply take_hit_worn_down. apply is_alive_pos in Halive. lia.
Qed.

(** A turn takes no stat and gives no health. *)
Lemma turn_aged (rs : RandomSource) (ws : list Weapon.t)
    (player enemy : Team.t) (attacker : loc) (a : Arena) :
  Forall2 worn_down (arena_units a)
          (arena_units (turn rs ws player enemy attacker a).1).
Proof.
  turn_cases rs ws player enemy attacker a.
  - apply aged_refl.
  - apply aged_refl.
  - by apply hit_aged.
Qed.

Lemma turn_healthy (rs : RandomSource) (ws : list Weapon.t)
    (player enemy : Team.t) (attacker : loc) (a : Arena) :
  Forall healthy (arena_units a) →
  Forall healthy (arena_units (turn rs ws player enemy attacker a).1).
Proof.
  intros Hall. turn_cases rs ws player enemy attacker a; try done.
  apply Forall_insert; [done|]. apply take_hit_healthy.
  rewrite Forall_forall in Hall. apply Hall.
  by eapply list_elem_of_lookup_2.
Qed.

(** The line a turn prints, if any, is in order. *)
Lemma turn_log (rs : RandomSource) (ws : list Weapon.t)
    (player enemy : Team.t) (attacker : loc) (a : Arena) :
  ∃ new, arena_log (turn rs ws player enemy attacker a).1 = arena_log a ++ new
         ∧ Forall (fair_hit ws (arena_units a)) new.
Proof.
  turn_cases rs ws player enemy attacker a.
  - exists []. by rewrite app_nil_r.
  - exists []. by rewrite app_nil_r.
  - eexists. split; [reflexivity|]. repeat constructor.
    exists att, tgt. simpl. repeat split; try done.
    destruct (PrimFloat.ltb _ _); destruct Hrule as [-> ->]; auto.
Qed.

(** ** The loop of a round *)

Lemma fight_loop_invariant (P : Arena → Prop) (rs : RandomSource)
    (ws : list Weapon.t) (player enemy : Team.t) :
  (∀ attacker a, P a → P (turn rs ws player enemy attacker a).1) →
  ∀ order a, P a → P (fight_loop rs ws player enemy order a).1.
Proof.
  intros Hturn. induction order as [|attacker order IH]; intros a Ha; [done|].
  simpl. specialize (Hturn attacker a Ha).
  destruct (turn rs ws player enemy attacker a) as [a' []]; simpl in *; auto.
Qed.

Lemma fight_round_arena (rs : RandomSource) (ws : list Weapon.t)
    (player enemy : Team.t) (round_num : Z) (a : Arena) :
  (fight_round rs ws player enemy round_num a).1
  = (fight_loop rs ws player enemy
       (fighters ws (arena_units a) player enemy) a).1.
Proof. unfold fight_round. by destruct (fight_loop _ _ _ _ _ _) as [a' []]. Qed.

Lemma fair_hit_aged (ws : list Weapon.t) (us0 us : list Unit.t) (h : Hit) :
  Forall2 worn_down us0 us → fair_hit ws us h → fair_hit ws us0 h.
Proof.
  intros Haged (att & tgt & Hatt & Htgt & Hrule & Hdealt).
  destruct (Forall2_lookup_r _ _ _ _ _ Haged Hatt) as (att0 & Hatt0 & [Ha _]).
  destruct (Forall2_lookup_r _ _ _ _ _ Haged Htgt) as (tgt0 & Htgt0 & [Ht _]).
  exists att0, tgt0. rewrite <-(same_stats_attack ws att0 att) by done.
  repeat split; try done.
  unfold same_stats in Ht. destruct_and!. congruence.
Qed.

Lemma fight_round_aged (rs : RandomSource) (ws : list Weapon.t)
    (player enemy : Team.t) (round_num : Z) (a : Arena) :
  Forall2 worn_down (arena_units a)
          (arena_units (fight_round rs ws player enemy round_num a).1).
Proof.
  rewrite fight_round_arena.
  apply (fight_loop_invariant
           (λ a', Forall2 worn_down (arena_units a) (arena_units a')));
    [|apply aged_refl].
  intros attacker a' Ha'. eapply aged_trans; [done|apply turn_aged].
Qed.

Lemma fight_round_healthy (rs : RandomSource) (ws : list Weapon.t)
    (player enemy : Team.t) (round_num : Z) (a : Arena) :
  Forall healthy (arena_units a) →
  Forall healthy (arena_units (fight_round rs ws player enemy round_num a).1).
Proof.
  rewrite fight_round_arena.
  apply (fight_loop_invariant (λ a', Forall healthy (arena_units a'))).
  intros attacker a'. apply turn_healthy.
Qed.

Lemma fight_round_log (rs : RandomSource) (ws : list Weapon.t)
    (player enemy : Team.t) (round_num : Z) (a : Arena) :
  ∃ new,
    arena_log (fight_round rs ws player enemy round_num a).1
    = arena_log a ++ new
    ∧ Forall (fair_hit ws (arena_units a)) new.
Proof.
  rewrite fight_round_arena.
  apply (fight_loop_invariant
           (λ a', Forall2 worn_down (arena_units a) (arena_units a')
                  ∧ ∃ new, arena_log a' = arena_log a ++ new
                           ∧ Forall (fair_hit ws (arena_units a)) new)).
  - intros attacker a' [Haged (new & Hlog & Hnew)]. split.
    + eapply aged_trans; [done|apply turn_aged].
    + destruct (turn_log rs ws player enemy attacker a') as (new' & -> & Hnew').
      exists (new ++ new'). rewrite Hlog, app_assoc. split; [done|].
      apply Forall_app. split; [done|].
      eapply Forall_impl; [exact Hnew'|].
      intros h. by apply fair_hit_aged.
  - split; [apply aged_refl|]. exists []. by rewrite app_nil_r.
Qed.

(** ** The damage of an attack *)





(** ** The outcome of a round *)

Lemma outcome_cases (player_alive enemy_alive : nat) :
  let result := outcome player_alive enemy_alive in
  (result = "draw"%string ↔ enemy_alive = 0%nat ∧ player_alive = 0%nat)
  ∧ (result = "player"%string ↔ enemy_alive = 0%nat ∧ player_alive ≠ 0%nat)
  ∧ (result = "enemy"%string ↔ enemy_alive ≠ 0%nat ∧ player_alive = 0%nat)
  ∧ (result = "continue"%string
     ↔ enemy_alive ≠ 0%nat ∧ player_alive ≠ 0%nat).
Proof.
  destruct player_alive, enemy_alive; vm_compute;
    repeat split; intros; destruct_and?; done.
Qed.

Lemma crit_defined_same_stats (ws : list Weapon.t) (u u' : Unit.t) :
  same_stats u u' → crit_defined ws u → crit_defined ws u'.
Proof.
  intros Hsame. unfold crit_defined. by rewrite (same_stats_attack ws u u').
Qed.

Lemma turn_crit_defined (rs : RandomSource) (ws : list Weapon.t)
    (player enemy : Team.t) (attacker : loc) (a : Arena) :
  Forall (crit_defined ws) (arena_units a) →
  Forall (crit_defined ws)
         (arena_units (turn rs ws player enemy attacker a).1)
  ∧ ∀ e, (turn rs ws player enemy attacker a).2 ≠ Raise e.
Proof.
  intros Hall. turn_cases rs ws player enemy attacker a.
  - split; [done|]. by destruct Hflow as [-> | ->].
  - rewrite Forall_forall in Hall.
    destruct (Hall att) as [d Hd]; [by eapply list_elem_of_lookup_2|].
    congruence.
  - split; [|done]. apply Forall_insert; [done|].
    apply (crit_defined_same_stats ws tgt); [apply take_hit_same_stats|].
    rewrite Forall_forall in Hall. apply Hall.
    by eapply list_elem_of_lookup_2.
Qed.

(** A round in which every crit damage can be computed ends without an
    exception. *)
Lemma fight_loop_returns (rs : RandomSource) (ws : list Weapon.t)
    (player enemy : Team.t) (order : list loc) (a : Arena) :
  Forall (crit_defined ws) (arena_units a) →
  (fight_loop rs ws player enemy order a).2 = None.
Proof.
  revert a. induction order as [|attacker order IH]; intros a Hall; [done|].
  simpl. destruct (turn_crit_defined rs ws player enemy attacker a Hall)
    as [Hall' Hflow].
  destruct (turn rs ws player enemy attacker a) as [a' [| |e]]; simpl in *.
  - by apply IH.
  - done.
  - by destruct (Hflow e).
Qed.

(** A round that ends with an exception has a unit whose crit damage
    raises it. *)
Lemma fight_loop_raises (rs : RandomSource) (ws : list Weapon.t)
    (player enemy : Team.t) (order : list loc) (a : Arena) (e : Py.exn) :
  (fight_loop rs ws player enemy order a).2 = Some e →
  ∃ att, att ∈ arena_units a
         ∧ crit_damage (Unit.effective_attack ws att) = inl e.
Proof.
  revert a. induction order as [|attacker order IH]; intros a; [done|].
  simpl.
  pose proof (turn_cases rs ws player enemy attacker a) as Hcase.
  pose proof (turn_aged rs ws player enemy attacker a) as Haged.
  destruct (turn rs ws player enemy attacker a) as [a' [| |e']];
    simpl in *; [|done|].
  - intros Hraise. destruct (IH a' Hraise) as (att' & Hin & Hcrit).
    apply list_elem_of_lookup_1 in Hin as [l Hl].
    destruct (Forall2_lookup_r _ _ _ _ _ Haged Hl) as (att & Hatt & [Hsame _]).
    exists att. split; [by eapply list_elem_of_lookup_2|].
    by rewrite <-(same_stats_attack ws att att').
  - intros [= ->].
    inversion Hcase as [flow [Hflow|Hflow]|att e0 Hatt Hroll Hcrit|]; subst;
      [done..|].
    exists att. split; [by eapply list_elem_of_lookup_2|done].
Qed.

(** C6: a call of [fight_round] that returns, returns one of "draw",
    "player", "enemy" and "continue", and which one is fixed by the two
    alive counts after the round: both zero, only the enemy's zero, only
    the player's zero, neither zero.  The call does return whenever the
    crit damage [int(attack * 1.8)] of every unit's effective attack can
    be computed; a call that does not return was ended by the exception
    of such a computation. *)
Theorem fight_round_outcome (rs : RandomSource) (ws : list Weapon.t)
    (player enemy : Team.t) (round_num : Z) (a : Arena) :
  let after := fight_round rs ws player enemy round_num a in
  let player_alive := length (Team.alive_units (arena_units after.1) player) in
  let enemy_alive := length (Team.alive_units (arena_units after.1) enemy) in
  (∀ result, after.2 = inr result →
     result ∈ ["continue"; "player"; "enemy"; "draw"]%string
     ∧ (result = "draw"%string
        ↔ enemy_alive = 0%nat ∧ player_alive = 0%nat)
     ∧ (result = "player"%string
        ↔ enemy_alive = 0%nat ∧ player_alive ≠ 0%nat)
     ∧ (result = "enemy"%string
        ↔ enemy_alive ≠ 0%nat ∧ player_alive = 0%nat)
     ∧ (result = "continue"%string
        ↔ enemy_alive ≠ 0%nat ∧ player_alive ≠ 0%nat))
  ∧ (Forall (crit_defined ws) (arena_units a) →
     ∃ result, after.2 = inr result)
  ∧ (∀ e, after.2 = inl e →
          ∃ att, att ∈ arena_units a
                 ∧ crit_damage (Unit.effective_attack ws att) = inl e).
Proof.
  intros after player_alive enemy_alive.
  assert (∀ result, after.2 = inr result →
                    result = outcome player_alive enemy_alive) as Hresult.
  { subst after player_alive enemy_alive. unfold fight_round.
    destruct (fight_loop _ _ _ _ _ _) as [a' [e|]]; simpl; congruence. }
  split; [|split].
  - intros result Hr. apply Hresult in Hr as ->.
    split; [|apply outcome_cases].
    unfold outcome. repeat case_match; rewrite !elem_of_cons; auto 10.
  - intros Hall. subst after. unfold fight_round.
    pose proof (fight_loop_returns rs ws player enemy
                  (fighters ws (arena_units a) player enemy) a Hall) as Hret.
    destruct (fight_loop _ _ _ _ _ _) as [a' [e|]]; simpl in *; [done|].
    by eexists.
  - intros e. subst after. unfold fight_round.
    pose proof (fight_loop_raises rs ws player enemy
                  (fighters ws (arena_units a) player enemy) a e) as Hraise.
    destruct (fight_loop _ _ _ _ _ _) as [a' [e'|]]; simpl in *; [|done].
    intros [= ->]. by apply Hraise.
Qed.

Lemma fight_round_outcome_witness :
  Forall (crit_defined []) (arena_units duel)
  ∧ (fight_round steady [] side_a side_b 1 duel).2 = inr "continue"%string
  ∧ "continue"%string ∈ ["continue"; "player"; "enemy"; "draw"]%string
  ∧ ∃ result, (fight_round steady [] side_a side_b 1 duel).2 = inr result.
Proof.
  assert (Forall (crit_defined []) (arena_units duel)) as Hall.
  { repeat constructor; eexists; by vm_compute. }
  destruct (fight_round_outcome steady [] side_a side_b 1 duel)
    as (Hclass & Hreturns & _).
  split; [exact Hall|]. split; [reflexivity|].
  split; [apply (Hclass "continue"%string); reflexivity|].
  apply Hreturns, Hall.
Defined.

(** ** A round with one side down *)

Lemma unit_eqb_hp (ws : list Weapon.t) (u u' : Unit.t) :
  Unit.eqb ws u u' = true → Unit.hp u = Unit.hp u'.
Proof.
  unfold Unit.eqb. intros H. apply andb_prop in H as [_ H].
  by apply Z.eqb_eq.
Qed.

(** An alive attacker found in a list of units - the very object or an
    equal one - shows that the list has an alive unit. *)
Lemma unit_in_alive (ws : list Weapon.t) (us : list Unit.t)
    (attacker : loc) (units : list loc) :
  unit_in ws us attacker units = true →
  Team.alive_at us attacker = true →
  ∃ l, l ∈ units ∧ Team.alive_at us l = true.
Proof.
  unfold unit_in. rewrite existsb_exists. intros (l & Hin & Hl) Halive.
  exists l. split; [by apply list_elem_of_In|].
  apply orb_prop in Hl as [Hsame|Heq].
  - apply Nat.eqb_eq in Hsame. by subst.
  - unfold Team.alive_at, loc in *.
    destruct (us !! l) as [u|], (us !! attacker) as [att|]; try done.
    apply unit_eqb_hp in Heq. unfold Unit.is_alive in *. by rewrite Heq.
Qed.

Lemma unit_in_self (ws : list Weapon.t) (us : list Unit.t)
    (attacker : loc) (units : list loc) :
  attacker ∈ units → unit_in ws us attacker units = true.
Proof.
  intros Hin. unfold unit_in. apply existsb_exists.
  exists attacker. split; [by apply list_elem_of_In|].
  by rewrite Nat.eqb_refl.
Qed.

Lemma alive_units_nil (us : list Unit.t) (tm : Team.t) (l : loc) :
  Team.alive_units us tm = [] → l ∈ Team.units tm →
  Team.alive_at us l = false.
Proof.
  intros Hnil Hin. destruct (Team.alive_at us l) eqn:Halive; [|done].
  assert (l ∈ Team.alive_units us tm) as Hl.
  { apply list_elem_of_filter. split; [by apply Is_true_true|done]. }
  rewrite Hnil in Hl. by apply not_elem_of_nil in Hl.
Qed.

(** The first fighter of a round finds nobody to hit. *)
Lemma turn_break (rs : RandomSource) (ws : list Weapon.t)
    (player enemy : Team.t) (attacker : loc) (a : Arena) :
  Team.alive_at (arena_units a) attacker = true →
  (if unit_in ws (arena_units a) attacker (Team.units player)
   then Team.alive_units (arena_units a) enemy
   else Team.alive_units (arena_units a) player) = [] →
  turn rs ws player enemy attacker a = (a, Break).
Proof.
  unfold Team.alive_at, turn. intros Halive Hnone.
  destruct (arena_units a !! attacker) as [att|]; [|done].
  rewrite Halive. simpl. by rewrite Hnone.
Qed.

Lemma fighters_first (ws : list Weapon.t) (us : list Unit.t)
    (player enemy : Team.t) :
  Team.alive_units us player ++ Team.alive_units us enemy ≠ [] →
  ∃ attacker order,
    fighters ws us player enemy = attacker :: order
    ∧ attacker ∈ Team.alive_units us player ++ Team.alive_units us enemy.
Proof.
  intros Hne. unfold fighters.
  pose proof (sort_desc_perm (speed_at ws us)
                (Team.alive_units us player ++ Team.alive_units us enemy))
    as Hperm.
  destruct (sort_desc _ _) as [|attacker order].
  - by apply Permutation_nil in Hperm.
  - exists attacker, order. split; [done|]. rewrite <-Hperm. by left.
Qed.

(** C7: when a round starts with no alive unit on one team and at least
    one on the other, [fight_round] returns the win of the other side
    and leaves the arena as it found it: no unit is touched, no draw is
    made from the generator, nothing is printed.  (With no alive unit on
    either team it returns "draw", the arena untouched as well.) *)
Theorem round_with_side_down (rs : RandomSource) (ws : list Weapon.t)
    (player enemy : Team.t) (round_num : Z) (a : Arena) :
  let us := arena_units a in
  (Team.alive_units us player = [] → Team.alive_units us enemy ≠ [] →
   fight_round rs ws player enemy round_num a = (a, inr "enemy"%string))
  ∧ (Team.alive_units us enemy = [] → Team.alive_units us player ≠ [] →
     fight_round rs ws player enemy round_num a = (a, inr "player"%string))
  ∧ (Team.alive_units us player = [] → Team.alive_units us enemy = [] →
     fight_round rs ws player enemy round_num a = (a, inr "draw"%string)).
Proof.
  intros us. subst us. split; [|split].
  - intros Hplayer Henemy.
    destruct (fighters_first ws (arena_units a) player enemy)
      as (attacker & order & Horder & Hin); [by rewrite Hplayer|].
    rewrite Hplayer in Hin. simpl in Hin.
    apply alive_units_alive in Hin as (_ & att & Hatt & Halive).
    assert (Team.alive_at (arena_units a) attacker = true) as Hat
      by (unfold Team.alive_at; by rewrite Hatt).
    assert (unit_in ws (arena_units a) attacker (Team.units player) = false)
      as Hout.
    { destruct (unit_in _ _ _ _) eqn:Hin; [|done].
      destruct (unit_in_alive _ _ _ _ Hin Hat) as (l & Hl & Hl_alive).
      by rewrite (alive_units_nil _ _ _ Hplayer Hl) in Hl_alive. }
    unfold fight_round. rewrite Horder. simpl.
    rewrite (turn_break rs ws player enemy attacker a Hat)
      by (by rewrite Hout).
    rewrite Hplayer. by destruct (Team.alive_units _ enemy).
  - intros Henemy Hplayer.
    destruct (fighters_first ws (arena_units a) player enemy)
      as (attacker & order & Horder & Hin);
      [by rewrite Henemy, app_nil_r|].
    rewrite Henemy, app_nil_r in Hin.
    apply alive_units_alive in Hin as (Hunits & att & Hatt & Halive).
    assert (Team.alive_at (arena_units a) attacker = true) as Hat
      by (unfold Team.alive_at; by rewrite Hatt).
    unfold fight_round. rewrite Horder. simpl.
    rewrite (turn_break rs ws player enemy attacker a Hat)
      by (by rewrite unit_in_self).
    rewrite Henemy. by destruct (Team.alive_units _ player).
  - intros Hplayer Henemy. unfold fight_round, fighters.
    rewrite Hplayer, Henemy. simpl. by rewrite Hplayer, Henemy.
Qed.

Lemma round_with_side_down_witness :
  Team.alive_units (arena_units duel_lost) side_a = []
  ∧ Team.alive_units (arena_units duel_lost) side_b ≠ []
  ∧ fight_round steady [] side_a side_b 1 duel_lost
    = (duel_lost, inr "enemy"%string).
Proof.
  assert (Team.alive_units (arena_units duel_lost) side_a = []) as Hdown
    by reflexivity.
  assert (Team.alive_units (arena_units duel_lost) side_b ≠ []) as Hup
    by (by vm_compute).
  split; [exact Hdown|]. split; [exact Hup|].
  exact (proj1 (round_with_side_down steady [] side_a side_b 1 duel_lost)
               Hdown Hup).
Defined.

(** ** The crit cap *)

Lemma float_ltb_leb (x y : float) :
  PrimFloat.ltb x y = true → PrimFloat.leb x y = true.
Proof.
  rewrite ltb_spec, leb_spec. unfold SFltb, SFleb.
  by destruct (SFcompare _ _) as [[]|].
Qed.

(** [min(0.75, x)] is at most 0.75, whatever [x] is. *)
Lemma fmin_capped (x : float) : capped (Py.fmin 0.75 x).
Proof.
  unfold capped, Py.fmin. destruct (PrimFloat.ltb x 0.75) eqn:Hx.
  - by apply float_ltb_leb.
  - reflexivity.
Qed.

Lemma armed_capped (ws : list Weapon.t) (u : Unit.t) (w : Weapon.t) :
  Unit.armed ws u = Some w → capped_unit ws u.
Proof.
  intros Hw. unfold capped_unit, Unit.effective_crit. rewrite Hw.
  apply fmin_capped.
Qed.

Lemma apply_capped (up : Upgrade.t) (w : Weapon.t) :
  capped_weapon w → capped_weapon (Upgrade.apply up w).
Proof.
  unfold capped_weapon, Upgrade.apply.
  destruct (Upgrade.key up); simpl; [done| |done].
  intros _. apply fmin_capped.
Qed.

Lemma apply_crit_capped (value : float) (label : string) (cost : Z)
    (w : Weapon.t) :
  capped_weapon (Upgrade.apply (Upgrade.mk (Upgrade.crit value) label cost) w).
Proof. apply fmin_capped. Qed.

Lemma apply_at_length (up : Upgrade.t) (l : loc) (ws : list Weapon.t) :
  length (Upgrade.apply_at up l ws) = length ws.
Proof.
  unfold Upgrade.apply_at. destruct (ws !! l); [|done].
  apply length_insert.
Qed.

Lemma apply_at_capped (up : Upgrade.t) (l : loc) (ws : list Weapon.t) :
  Forall capped_weapon ws → Forall capped_weapon (Upgrade.apply_at up l ws).
Proof.
  intros Hall. unfold Upgrade.apply_at.
  destruct (ws !! l) as [w|] eqn:Hw; [|done].
  apply Forall_insert; [done|]. apply apply_capped.
  rewrite Forall_forall in Hall. apply Hall. by eapply list_elem_of_lookup_2.
Qed.

(** A store of the same size arms the same units, and an armed unit is
    capped by the clamp: the cap on the units outlives any change of the
    weapons. *)
Lemma capped_unit_rearmed (ws ws' : list Weapon.t) (u : Unit.t) :
  length ws' = length ws → capped_unit ws u → capped_unit ws' u.
Proof.
  intros Hlen Hu.
  destruct (Unit.armed ws' u) as [w'|] eqn:Hw'; [by eapply armed_capped|].
  unfold capped_unit, Unit.effective_crit in *. rewrite Hw'.
  destruct (Unit.armed ws u) as [w|] eqn:Hw; [|done].
  unfold Unit.armed in *. destruct (Unit.is_hero u); [|done].
  destruct (Unit.weapon u) as [l|]; [|done]. simpl in *.
  apply lookup_lt_Some in Hw. apply lookup_ge_None in Hw'. lia.
Qed.

Lemma same_stats_capped (ws : list Weapon.t) (u u' : Unit.t) :
  same_stats u u' → capped_unit ws u → capped_unit ws u'.
Proof.
  intros Hsame. unfold capped_unit. by rewrite (same_stats_crit ws u u').
Qed.

(** ** The shops *)

Local Arguments Nat.leb : simpl never.
Local Arguments Nat.ltb : simpl never.

Lemma read_choice_pick {A : Type} (table : list A) (line : string) (item : A) :
  read_choice table line = inr (Pick item) → item ∈ table.
Proof.
  unfold read_choice. repeat case_match; try done.
  intros [= <-]. by eapply list_elem_of_lookup_2.
Qed.

(** An invariant of the gold and the weapons that every purchase keeps,
    holds when the upgrade shop is left, by [return] or by an exception;
    if by [return], the gold it holds of is the returned one. *)
Lemma run_upgrade_shop_invariant (P : Z → list Weapon.t → Prop)
    (upgrades : list Upgrade.t) (weapon : loc) (owner : string) :
  (∀ gold ws up, P gold ws → up ∈ upgrades → Upgrade.cost up ≤ gold →
                 P (gold - Upgrade.cost up) (Upgrade.apply_at up weapon ws)) →
  ∀ stdin gold ws stdout,
    P gold ws →
    let shop := run_upgrade_shop upgrades stdin gold weapon owner ws stdout in
    ∃ gold', P gold' (shop_state shop)
             ∧ ∀ g, shop_result shop = inr g → g = gold'.
Proof.
  intros Hbuy. induction stdin as [|line stdin IH]; intros gold ws stdout HP.
  - exists gold. by split.
  - simpl. destruct (read_choice upgrades line) as [e|[| |up]] eqn:Hline.
    + exists gold. by split.
    + exists gold. split; [done|]. by intros g [= <-].
    + by apply IH.
    + destruct (gold <? Upgrade.cost up) eqn:Hcost; [by apply IH|].
      apply IH, Hbuy; [done|by eapply read_choice_pick|].
      apply Z.ltb_ge in Hcost. lia.
Qed.

Lemma run_prematch_shop_invariant (P : Z → Team.t → list Unit.t → Prop)
    (catalog : list Template.t) :
  (∀ gold team us pick, P gold team us → pick ∈ catalog →
                        Template.cost pick ≤ gold →
                        (length (Team.units team) < MAX_UNITS)%nat →
                        P (gold - Template.cost pick)
                          (recruit pick team us).1 (recruit pick team us).2) →
  ∀ stdin gold team us stdout,
    P gold team us →
    let shop := run_prematch_shop catalog stdin gold team us stdout in
    ∃ gold', P gold' (shop_state shop).1 (shop_state shop).2
             ∧ ∀ g, shop_result shop = inr g → g = gold'.
Proof.
  intros Hbuy.
  induction stdin as [|line stdin IH]; intros gold team us stdout HP.
  - simpl. destruct (MAX_UNITS <=? length (Team.units team))%nat;
      exists gold; (split; [done|]); try done; by intros g [= <-].
  - simpl. destruct (MAX_UNITS <=? length (Team.units team))%nat eqn:Hfull.
    { exists gold. split; [done|]. by intros g [= <-]. }
    apply Nat.leb_gt in Hfull.
    destruct (read_choice catalog line) as [e|[| |pick]] eqn:Hline.
    + exists gold. by split.
    + exists gold. split; [done|]. by intros g [= <-].
    + by apply IH.
    + destruct (gold <? Template.cost pick) eqn:Hcost; [by apply IH|].
      apply Z.ltb_ge in Hcost.
      apply IH.
      apply (Hbuy gold team us pick HP); [by eapply read_choice_pick|lia|done].
Qed.

Lemma ai_buy_units_invariant (P : Z → Team.t → list Unit.t → Prop)
    (catalog : list Template.t) (rs : RandomSource) :
  (∀ gold team us pick, P gold team us → pick ∈ catalog →
                        Template.cost pick ≤ gold →
                        (length (Team.units team) < MAX_UNITS)%nat →
                        P (gold - Template.cost pick)
                          (recruit pick team us).1 (recruit pick team us).2) →
  ∀ fuel calls gold team us bought,
    P gold team us →
    ai_buy_units fuel catalog rs calls gold team us = Some bought →
    ∃ gold', P gold' (bought_state bought).1 (bought_state bought).2
             ∧ ∀ g, bought_result bought = inr g → g = gold'.
Proof.
  intros Hbuy.
  induction fuel as [|fuel IH]; intros calls gold team us bought HP;
    simpl; destruct (min_cost catalog) as [e|lowest];
    destruct catalog as [|c0 catalog'] eqn:Hcat;
    try (intros [= <-]; exists gold; by split).
  - destruct (_ && _); [done|].
    intros [= <-]. exists gold. split; [done|]. by intros g [= <-].
  - destruct (_ && _) eqn:Hgo;
      [|intros [= <-]; exists gold; split; [done|by intros g [= <-]]].
    apply andb_prop in Hgo as [_ Hroom]. apply Nat.ltb_lt in Hroom.
    set (pick := choice rs calls c0 (c0 :: catalog')).
    assert (pick ∈ c0 :: catalog') as Hpick by (by apply choice_elem_of).
    destruct (gold <? Template.cost pick) eqn:Hcost; [by apply IH|].
    apply Z.ltb_ge in Hcost.
    apply IH. apply (Hbuy gold team us pick HP Hpick); [lia|done].
Qed.

Lemma ai_upgrade_weapon_invariant (P : Z → list Weapon.t → Prop)
    (upgrades : list Upgrade.t) (rs : RandomSource) (weapon : loc) :
  (∀ gold ws up, P gold ws → up ∈ upgrades → Upgrade.cost up ≤ gold →
                 P (gold - Upgrade.cost up) (Upgrade.apply_at up weapon ws)) →
  ∀ calls gold ws,
    P gold ws →
    let bought := ai_upgrade_weapon upgrades rs calls gold weapon ws in
    ∃ gold', P gold' (bought_state bought) ∧ bought_result bought = inr gold'.
Proof.
  intros Hbuy calls gold ws HP. unfold ai_upgrade_weapon.
  destruct (filter _ upgrades) as [|u0 affordable] eqn:Hfilter.
  - by exists gold.
  - set (up := choice rs calls u0 (u0 :: affordable)).
    assert (up ∈ u0 :: affordable) as Hup by (by apply choice_elem_of).
    rewrite <-Hfilter in Hup. apply list_elem_of_filter in Hup as [Hcost Hin].
    eexists. split; [|done]. by apply Hbuy.
Qed.

(** The automated buyer comes to an end when the generator is patient:
    every purchase is at most [k] draws away, and there is room for
    [MAX_UNITS] units at most. *)
Lemma ai_buy_units_returns (catalog : list Template.t) (rs : RandomSource)
    (k : nat) :
  patient rs catalog k →
  ∀ room fuel calls gold team us,
    (MAX_UNITS - length (Team.units team) ≤ room)%nat →
    (room * k ≤ fuel)%nat →
    is_Some (ai_buy_units fuel catalog rs calls gold team us).
Proof.
  intros Hpatient. destruct catalog as [|c0 cs].
  { intros room [|fuel] calls gold team us _ _; by eexists. }
  set (catalog := c0 :: cs) in *.
  assert (∃ lowest, min_cost catalog = inr lowest) as [lowest Hlowest]
    by (by eexists).
  induction room as [|room IHroom]; intros fuel calls gold team us Hroom Hfuel.
  { assert ((length (Team.units team) <? MAX_UNITS)%nat = false) as Hfull
      by (apply Nat.ltb_ge; lia).
    destruct fuel; simpl; rewrite Hfull, andb_false_r; by eexists. }
  destruct (Hpatient calls) as (j & Hj & Hcheap).
  assert (j + 1 + room * k ≤ fuel)%nat as Hfuel' by (simpl in Hfuel; lia).
  clear Hfuel Hj. revert calls fuel Hcheap Hfuel'.
  induction j as [|j IHj]; intros calls fuel Hcheap Hfuel;
    (destruct fuel as [|fuel]; [lia|]);
    change (is_Some
      (if (match min_cost catalog with inr m => m | inl _ => 0 end <=? gold)
          && (length (Team.units team) <? MAX_UNITS)%nat
       then
         if gold <? Template.cost (choice rs calls c0 catalog)
         then ai_buy_units fuel catalog rs (S calls) gold team us
         else ai_buy_units fuel catalog rs (S calls)
                (gold - Template.cost (choice rs calls c0 catalog))
                (recruit (choice rs calls c0 catalog) team us).1
                (recruit (choice rs calls c0 catalog) team us).2
       else Some (Build_Bought (inr gold) (team, us) calls)));
    destruct (_ && _) eqn:Hgo; try (by eexists);
    apply andb_prop in Hgo as [Hgold Hspace];
    apply Z.leb_le in Hgold; apply Nat.ltb_lt in Hspace;
    destruct (gold <? _) eqn:Hcost.
  - apply Z.ltb_lt in Hcost. rewrite Nat.add_0_r in Hcheap.
    rewrite Hcheap in Hgold. lia.
  - apply IHroom; [simpl; rewrite length_app; simpl; lia|lia].
  - apply IHj; [|lia].
    by replace (S calls + j)%nat with (calls + S j)%nat by lia.
  - apply IHroom; [simpl; rewrite length_app; simpl; lia|lia].
Qed.

(** ** The match *)

(** A unit fresh from the catalog has its full health, which is not
    negative, and a crit chance of at most 0.75. *)
Lemma catalog_unit_sound (ws : list Weapon.t) (t : Template.t) :
  t ∈ UNIT_CATALOG → healthy (create_unit t) ∧ capped_unit ws (create_unit t).
Proof.
  unfold UNIT_CATALOG. rewrite !elem_of_cons, elem_of_nil.
  intros [->|[->|[->|[->|[]]]]]; split; by vm_compute.
Qed.

Lemma aged_capped (ws : list Weapon.t) (us us' : list Unit.t) :
  Forall2 worn_down us us' →
  Forall (capped_unit ws) us → Forall (capped_unit ws) us'.
Proof.
  induction 1 as [|u u' us us' [Hsame _] _ IH]; [done|].
  rewrite !Forall_cons. intros [Hu Hus]. split; [|by apply IH].
  by apply (same_stats_capped ws u).
Qed.

Lemma rearmed_capped (ws ws' : list Weapon.t) (us : list Unit.t) :
  length ws' = length ws →
  Forall (capped_unit ws) us → Forall (capped_unit ws') us.
Proof.
  intros Hlen Hus. eapply Forall_impl; [exact Hus|].
  intros u. by apply capped_unit_rearmed.
Qed.

(** The purchases of the two first shops keep the gold from going
    negative and add sound units only. *)
Lemma recruit_sound (ws : list Weapon.t) (gold : Z) (team : Team.t)
    (us : list Unit.t) (pick : Template.t) :
  0 ≤ gold ∧ Forall healthy us ∧ Forall (capped_unit ws) us →
  pick ∈ UNIT_CATALOG → Template.cost pick ≤ gold →
  0 ≤ gold - Template.cost pick
  ∧ Forall healthy (recruit pick team us).2
  ∧ Forall (capped_unit ws) (recruit pick team us).2.
Proof.
  intros (Hgold & Hhealth & Hcrit) Hpick Hcost.
  destruct (catalog_unit_sound ws pick Hpick) as [Hh Hc].
  simpl. rewrite !Forall_app, !Forall_singleton.
  split; [lia|split; by split].
Qed.

Lemma begin_match_sound (fuel : nat) (rs : RandomSource)
    (stdin : list string) (m : Match) :
  begin_match fuel rs stdin = Some (inr m) → sound m.
Proof.
  unfold begin_match.
  set (ws := [Weapon.new; Weapon.new]).
  set (P := λ (gold : Z) (_ : Team.t) (us : list Unit.t),
              0 ≤ gold ∧ Forall healthy us ∧ Forall (capped_unit ws) us).
  assert (∀ gold team us pick, P gold team us → pick ∈ UNIT_CATALOG →
            Template.cost pick ≤ gold →
            (length (Team.units team) < MAX_UNITS)%nat →
            P (gold - Template.cost pick)
              (recruit pick team us).1 (recruit pick team us).2) as Hbuy.
  { intros gold team us pick HP Hpick Hcost _.
    by apply recruit_sound. }
  assert (P START_GOLD (Team.mk "Player" [0%nat])
            [create_hero "Hero" player_weapon;
             create_hero "Warlord" enemy_weapon]) as Hstart.
  { repeat split; try (by vm_compute); repeat constructor; by vm_compute. }
  destruct (run_prematch_shop_invariant P UNIT_CATALOG Hbuy stdin _ _ _ []
              Hstart) as (player_gold' & (Hpg & Hhealth & Hcrit) & Hresult).
  destruct (shop_result _) as [e|player_gold] eqn:Hshop; [done|].
  rewrite (Hresult player_gold eq_refl) in *.
  destruct (shop_state _) as [team us]. simpl in Hhealth, Hcrit.
  destruct (ai_buy_units _ _ _ _ _ _ _) as [bought|] eqn:Hbought; [|done].
  assert (P START_GOLD (Team.mk "Enemy" [1%nat]) us) as Hstart'
    by (by repeat split).
  destruct (ai_buy_units_invariant P UNIT_CATALOG rs Hbuy _ _ _ _ _ _
              Hstart' Hbought)
    as (enemy_gold' & (Heg & Hhealth' & Hcrit') & Hresult').
  destruct (bought_result bought) as [e|enemy_gold]; [done|].
  rewrite (Hresult' enemy_gold eq_refl) in *.
  destruct (bought_state bought) as [team' us'].
  intros [= <-]. constructor; simpl in *; try done.
  by repeat constructor.
Qed.

Lemma economy_phase_sound (rs : RandomSource) (m : Match) :
  sound m →
  sound (economy_phase rs m).1
  ∧ match_units (economy_phase rs m).1 = match_units m.
Proof.
  intros [Hhealth Hcrit Hweapons Hlen Hpg Heg]. unfold economy_phase.
  set (P := λ (gold : Z) (ws : list Weapon.t),
              0 ≤ gold ∧ Forall capped_weapon ws ∧ length ws = 2%nat).
  assert (∀ weapon gold ws up, P gold ws → up ∈ UPGRADES →
            Upgrade.cost up ≤ gold →
            P (gold - Upgrade.cost up) (Upgrade.apply_at up weapon ws))
    as Hbuy.
  { intros weapon gold ws up (Hg & Hw & Hl) _ Hcost.
    split; [lia|]. split; [by apply apply_at_capped|by rewrite apply_at_length]. }
  assert (ROUND_INCOME + 2 = 7) as -> by reflexivity.
  destruct (run_upgrade_shop_invariant P UPGRADES player_weapon "Player"
              (Hbuy player_weapon) (match_stdin m) (player_gold m + 7)
              (match_weapons m) [])
    as (player_gold' & (Hpg' & Hweapons' & Hlen') & Hresult);
    [split; [lia|by split]|].
  destruct (shop_result _) as [e|pg]; simpl.
  { split; [|done]. constructor; simpl; try done; try lia.
    eapply rearmed_capped; [|done]. congruence. }
  rewrite (Hresult pg eq_refl) in *.
  destruct (ai_upgrade_weapon_invariant P UPGRADES rs enemy_weapon
              (Hbuy enemy_weapon) (match_calls m) (enemy_gold m + 7)
              (shop_state (run_upgrade_shop UPGRADES (match_stdin m)
                             (player_gold m + 7) player_weapon "Player"
                             (match_weapons m) [])))
    as (enemy_gold' & (Heg' & Hweapons'' & Hlen'') & ->);
    [split; [lia|by split]|].
  simpl. split; [|done]. constructor; simpl; try done.
  eapply rearmed_capped; [|done]. congruence.
Qed.

(** A pass of the loop keeps the match sound, and wears the units down
    at most. *)
Lemma play_round_sound (rs : RandomSource) (m : Match) :
  sound m →
  sound (play_round rs m).1
  ∧ Forall2 worn_down (match_units m) (match_units (play_round rs m).1).
Proof.
  intros Hm. destruct Hm as [Hhealth Hcrit Hweapons Hlen Hpg Heg] eqn:Hsound.
  unfold play_round.
  pose proof (fight_round_aged rs (match_weapons m) (player_team m)
                (enemy_team m) (round_num m)
                (Build_Arena (match_units m) (match_calls m) [])) as Haged.
  pose proof (fight_round_healthy rs (match_weapons m) (player_team m)
                (enemy_team m) (round_num m)
                (Build_Arena (match_units m) (match_calls m) []) Hhealth)
    as Hhealth'.
  destruct (fight_round _ _ _ _ _ _) as [a r]. simpl in Haged, Hhealth'.
  pose proof (aged_capped _ _ _ Haged Hcrit) as Hcrit'.
  set (m1 := {| match_units := arena_units a |}).
  assert (sound m1) as Hm1 by (by constructor).
  destruct r as [e|result]; [by split|].
  destruct (_ || _); [by split|].
  destruct (economy_phase_sound rs m1 Hm1) as [Hm2 Hunits].
  split; [done|]. by rewrite Hunits.
Qed.

Lemma reachable_sound (rs : RandomSource) (m : Match) (st : Status) :
  reachable rs m st → sound m.
Proof.
  induction 1 as [fuel stdin m Hbegin|m m' st _ IH Hround].
  - by eapply begin_match_sound.
  - pose proof (play_round_sound rs m IH) as [Hsound _].
    by rewrite Hround in Hsound.
Qed.

(** Every unit enters the match at its full health. *)
Lemma begin_match_fresh (fuel : nat) (rs : RandomSource)
    (stdin : list string) (m : Match) :
  begin_match fuel rs stdin = Some (inr m) → Forall fresh (match_units m).
Proof.
  unfold begin_match.
  set (P := λ (_ : Z) (_ : Team.t) (us : list Unit.t), Forall fresh us).
  assert (∀ gold team us pick, P gold team us → pick ∈ UNIT_CATALOG →
            Template.cost pick ≤ gold →
            (length (Team.units team) < MAX_UNITS)%nat →
            P (gold - Template.cost pick)
              (recruit pick team us).1 (recruit pick team us).2) as Hbuy.
  { intros gold team us pick HP _ _ _. apply Forall_app. by split; [|constructor]. }
  destruct (run_prematch_shop_invariant P UNIT_CATALOG Hbuy stdin START_GOLD
              (Team.mk "Player" [0%nat])
              [create_hero "Hero" player_weapon;
               create_hero "Warlord" enemy_weapon] [])
    as (g & Hfresh & _); [by repeat constructor|].
  destruct (shop_result _) as [e|pg]; [done|].
  destruct (shop_state _) as [team us]. simpl in Hfresh.
  destruct (ai_buy_units _ _ _ _ _ _ _) as [bought|] eqn:Hbought; [|done].
  destruct (ai_buy_units_invariant P UNIT_CATALOG rs Hbuy fuel 0%nat
              START_GOLD (Team.mk "Enemy" [1%nat]) us bought Hfresh Hbought)
    as (g' & Hfresh' & _).
  destruct (bought_result bought) as [e|eg]; [done|].
  destruct (bought_state bought) as [team' us'].
  by intros [= <-].
Qed.

(** The two unit shops add units and touch none. *)
Lemma run_prematch_shop_appends (catalog : list Template.t)
    (stdin : list string) (gold : Z) (team : Team.t) (us : list Unit.t)
    (stdout : list string) :
  us `prefix_of`
     (shop_state (run_prematch_shop catalog stdin gold team us stdout)).2.
Proof.
  destruct (run_prematch_shop_invariant (λ _ _ us', us `prefix_of` us')
              catalog) with stdin gold team us stdout as (g & Hus & _);
    [|done..].
  intros gold' team' us' pick Hus _ _ _. by apply prefix_app_r.
Qed.

Lemma ai_buy_units_appends (fuel : nat) (catalog : list Template.t)
    (rs : RandomSource) (calls : nat) (gold : Z) (team : Team.t)
    (us : list Unit.t) (bought : Bought (Team.t * list Unit.t)) :
  ai_buy_units fuel catalog rs calls gold team us = Some bought →
  us `prefix_of` (bought_state bought).2.
Proof.
  intros Hbought.
  destruct (ai_buy_units_invariant (λ _ _ us', us `prefix_of` us')
              catalog rs) with fuel calls gold team us bought
    as (g & Hus & _); [|done..].
  intros gold' team' us' pick Hus _ _ _. by apply prefix_app_r.
Qed.

(** C2: a unit is built with its health at its max health; [take_hit]
    keeps 0 <= health <= max health and does not raise the health; so does
    a whole round, which changes no other field either; the two unit
    shops add units and change none; every unit of a match starts at
    full health, every state a match goes through has all its units
    within 0 <= health <= max health, and no pass of the main loop gives
    a unit more health than it had. *)
Theorem health_invariant :
  (∀ name max_hp attack defense crit speed is_hero weapon hp,
     Unit.hp (Unit.new name max_hp attack defense crit speed is_hero
                       weapon hp) = max_hp
     ∧ Unit.max_hp (Unit.new name max_hp attack defense crit speed is_hero
                             weapon hp) = max_hp)
  ∧ (∀ u raw_damage,
       healthy u →
       healthy (Unit.take_hit u raw_damage).1
       ∧ Unit.hp (Unit.take_hit u raw_damage).1 ≤ Unit.hp u)
  ∧ (∀ rs ws player enemy round_num a,
       let a' := (fight_round rs ws player enemy round_num a).1 in
       Forall2 worn_down (arena_units a) (arena_units a')
       ∧ (Forall healthy (arena_units a) → Forall healthy (arena_units a')))
  ∧ (∀ catalog stdin gold team us stdout,
       us `prefix_of`
          (shop_state (run_prematch_shop catalog stdin gold team us stdout)).2)
  ∧ (∀ fuel catalog rs calls gold team us bought,
       ai_buy_units fuel catalog rs calls gold team us = Some bought →
       us `prefix_of` (bought_state bought).2)
  ∧ (∀ fuel rs stdin m,
       begin_match fuel rs stdin = Some (inr m) →
       Forall fresh (match_units m))
  ∧ (∀ rs m st, reachable rs m st → Forall healthy (match_units m))
  ∧ (∀ rs m,
       Forall2 worn_down (match_units m) (match_units (play_round rs m).1)).
Proof.
  split; [by intros|]. split; [|split; [|split; [|split; [|split; [|split]]]]].
  - intros u raw Hu. split; [by apply take_hit_healthy|].
    apply take_hit_worn_down, Hu.
  - intros. split; [apply fight_round_aged|apply fight_round_healthy].
  - apply run_prematch_shop_appends.
  - apply ai_buy_units_appends.
  - apply begin_match_fresh.
  - intros rs m st Hm. by destruct (reachable_sound rs m st Hm).
  - intros rs m. unfold play_round.
    pose proof (fight_round_aged rs (match_weapons m) (player_team m)
                  (enemy_team m) (round_num m)
                  (Build_Arena (match_units m) (match_calls m) [])) as Haged.
    destruct (fight_round _ _ _ _ _ _) as [a [e|result]]; [done|].
    destruct (_ || _); [done|].
    unfold economy_phase. simpl. by repeat case_match.
Qed.

Lemma health_invariant_witness :
  ∃ m, begin_match 10 steady ["d"%string] = Some (inr m)
       ∧ Forall fresh (match_units m)
       ∧ Forall healthy (match_units m)
       ∧ healthy (Unit.take_hit swordsman 9).1.
Proof.
  eexists. split; [reflexivity|].
  destruct health_invariant as (_ & Hhit & _ & _ & _ & Hfresh & Hreach & _).
  split; [by apply (Hfresh 10%nat steady ["d"%string])|].
  split.
  - apply (Hreach steady _ Running).
    by apply (reach_begin steady 10 ["d"%string]).
  - apply Hhit. by vm_compute.
Defined.

(** Any number of upgrades, of any kind and size, on any weapon, leaves
    the effective crit of a unit within the cap. *)
Lemma upgrades_capped (ups : list (Upgrade.t * loc)) (ws : list Weapon.t)
    (u : Unit.t) :
  capped_unit ws u →
  capped_unit (foldl (λ ws' up, Upgrade.apply_at up.1 up.2 ws') ws ups) u.
Proof.
  revert ws. induction ups as [|[up l] ups IH]; intros ws Hu; [done|].
  simpl. apply IH. eapply capped_unit_rearmed; [|done].
  apply apply_at_length.
Qed.

(** C5: the effective crit of a unit that combines its base crit with a
    weapon's crit bonus is at most 0.75 (a unit that combines nothing
    has its base crit); every upgrade leaves a crit bonus that was at
    most 0.75 at most 0.75, and a crit upgrade makes it so whatever it
    was; both upgrade functions keep every weapon's crit bonus within
    0.75; no sequence of upgrades takes a unit's effective crit above
    0.75; and in every state of a match every unit's effective crit and
    every weapon's crit bonus is at most 0.75. *)
Theorem crit_cap :
  (∀ ws u w, Unit.armed ws u = Some w →
             PrimFloat.leb (Unit.effective_crit ws u) 0.75 = true)
  ∧ (∀ ws u, Unit.armed ws u = None →
             Unit.effective_crit ws u = Unit.crit u)
  ∧ (∀ up w, capped_weapon w → capped_weapon (Upgrade.apply up w))
  ∧ (∀ value label cost w,
       PrimFloat.leb
         (Weapon.crit_bonus
            (Upgrade.apply (Upgrade.mk (Upgrade.crit value) label cost) w))
         0.75 = true)
  ∧ (∀ upgrades stdin gold weapon owner ws stdout,
       Forall capped_weapon ws →
       Forall capped_weapon
         (shop_state (run_upgrade_shop upgrades stdin gold weapon owner ws
                                       stdout)))
  ∧ (∀ upgrades rs calls gold weapon ws,
       Forall capped_weapon ws →
       Forall capped_weapon
         (bought_state (ai_upgrade_weapon upgrades rs calls gold weapon ws)))
  ∧ (∀ ups ws u,
       capped_unit ws u →
       capped_unit (foldl (λ ws' up, Upgrade.apply_at up.1 up.2 ws') ws ups) u)
  ∧ (∀ rs m st,
       reachable rs m st →
       Forall (capped_unit (match_weapons m)) (match_units m)
       ∧ Forall capped_weapon (match_weapons m)).
Proof.
  split; [apply armed_capped|].
  split; [by intros ws u Hu; unfold Unit.effective_crit; rewrite Hu|].
  split; [apply apply_capped|]. split; [apply apply_crit_capped|].
  split; [|split; [|split; [apply upgrades_capped|]]].
  - intros upgrades stdin gold weapon owner ws stdout Hws.
    destruct (run_upgrade_shop_invariant (λ _ ws', Forall capped_weapon ws')
                upgrades weapon owner
                (λ _ ws' up Hws' _ _, apply_at_capped up weapon ws' Hws')
                stdin gold ws stdout Hws) as (g & Hws' & _).
    done.
  - intros upgrades rs calls gold weapon ws Hws.
    destruct (ai_upgrade_weapon_invariant (λ _ ws', Forall capped_weapon ws')
                upgrades rs weapon
                (λ _ ws' up Hws' _ _, apply_at_capped up weapon ws' Hws')
                calls gold ws Hws) as (g & Hws' & _).
    done.
  - intros rs m st Hm. by destruct (reachable_sound rs m st Hm).
Qed.

Lemma crit_cap_witness :
  Unit.armed [Weapon.mk 0 0.9 0] (create_hero "Hero" 0%nat)
  = Some (Weapon.mk 0 0.9 0)
  ∧ PrimFloat.leb
      (Unit.effective_crit [Weapon.mk 0 0.9 0] (create_hero "Hero" 0%nat))
      0.75 = true.
Proof.
  split; [reflexivity|].
  apply (proj1 crit_cap [Weapon.mk 0 0.9 0] (create_hero "Hero" 0%nat)
               (Weapon.mk 0 0.9 0)).
  reflexivity.
Defined.

(** ** The gold *)

(** C10: started with gold that is not negative, each of the two shops
    and of the two automated buyers returns gold that is not negative,
    whatever the tables, the input and the draws are (each subtracts a
    cost only after finding it within the gold); the automated unit
    buyer does return, within [MAX_UNITS * k] passes of its loop, when
    the generator draws a cheapest unit at least once in any [k] draws;
    and in every state a match goes through, both balances are not
    negative. *)
Theorem gold_never_negative :
  (∀ catalog stdin gold team us stdout g,
     0 ≤ gold →
     shop_result (run_prematch_shop catalog stdin gold team us stdout) = inr g →
     0 ≤ g)
  ∧ (∀ upgrades stdin gold weapon owner ws stdout g,
       0 ≤ gold →
       shop_result (run_upgrade_shop upgrades stdin gold weapon owner ws stdout)
       = inr g →
       0 ≤ g)
  ∧ (∀ fuel catalog rs calls gold team us bought g,
       0 ≤ gold →
       ai_buy_units fuel catalog rs calls gold team us = Some bought →
       bought_result bought = inr g →
       0 ≤ g)
  ∧ (∀ upgrades rs calls gold weapon ws,
       0 ≤ gold →
       ∃ g, bought_result (ai_upgrade_weapon upgrades rs calls gold weapon ws)
            = inr g ∧ 0 ≤ g)
  ∧ (∀ catalog rs k fuel calls gold team us,
       patient rs catalog k →
       (MAX_UNITS * k ≤ fuel)%nat →
       is_Some (ai_buy_units fuel catalog rs calls gold team us))
  ∧ (∀ rs m st, reachable rs m st → 0 ≤ player_gold m ∧ 0 ≤ enemy_gold m).
Proof.
  split; [|split; [|split; [|split; [|split]]]].
  - intros catalog stdin gold team us stdout g Hgold Hg.
    destruct (run_prematch_shop_invariant (λ gold' _ _, 0 ≤ gold') catalog)
      with stdin gold team us stdout as (g' & Hg' & Hresult);
      [intros; lia|done|].
    by rewrite (Hresult g Hg).
  - intros upgrades stdin gold weapon owner ws stdout g Hgold Hg.
    destruct (run_upgrade_shop_invariant (λ gold' _, 0 ≤ gold') upgrades
                weapon owner)
      with stdin gold ws stdout as (g' & Hg' & Hresult);
      [intros; lia|done|].
    by rewrite (Hresult g Hg).
  - intros fuel catalog rs calls gold team us bought g Hgold Hbought Hg.
    destruct (ai_buy_units_invariant (λ gold' _ _, 0 ≤ gold') catalog rs)
      with fuel calls gold team us bought as (g' & Hg' & Hresult);
      [intros; lia|done|done|].
    by rewrite (Hresult g Hg).
  - intros upgrades rs calls gold weapon ws Hgold.
    destruct (ai_upgrade_weapon_invariant (λ gold' _, 0 ≤ gold') upgrades rs
                weapon)
      with calls gold ws as (g' & Hg' & Hresult);
      [intros; lia|done|].
    by exists g'.
  - intros catalog rs k fuel calls gold team us Hpatient Hfuel.
    apply (ai_buy_units_returns catalog rs k Hpatient MAX_UNITS); [lia|done].
  - intros rs m st Hm. by destruct (reachable_sound rs m st Hm).
Qed.

Lemma gold_never_negative_witness :
  0 ≤ 21
  ∧ shop_result (run_upgrade_shop UPGRADES ["3"; "3"; "3"; "3"; "3"; "3"; "d"]%string
                                  21 0%nat "Player" [Weapon.new] [])
    = inr 1
  ∧ 0 ≤ 1.
Proof.
  split; [lia|]. split; [reflexivity|].
  apply (proj1 (proj2 gold_never_negative) UPGRADES
               ["3"; "3"; "3"; "3"; "3"; "3"; "d"]%string
               21 0%nat "Player"%string [Weapon.new] [] 1);
    [lia|reflexivity].
Defined.

(** C8, as the claim has it, fails: asked for an upgrade that costs 30
    with 21 gold, the shop raises nothing; it prints its message, goes
    on, and at "d" returns the 21. *)
Lemma unaffordable_upgrade_no_error :
  let shop := run_upgrade_shop costly_table ["1"; "d"]%string 21 0%nat
                               "Player" [Weapon.new] [] in
  shop_result shop = inr 21
  ∧ shop_stdout shop = ["Not enough gold."%string]
  ∧ ¬ ∃ e, shop_result shop = inl e.
Proof. repeat split. by intros [e He]. Qed.

Lemma play_round_over (rs : RandomSource) (m m' : Match) (result : string) :
  play_round rs m = (m', Over result) →
  player_gold m' = player_gold m ∧ enemy_gold m' = enemy_gold m.
Proof.
  unfold play_round. destruct (fight_round _ _ _ _ _ _) as [a [e|r]]; [done|].
  destruct (_ || _); [by intros [= <- _]|].
  unfold economy_phase. by repeat case_match.
Qed.

Lemma play_round_running (rs : RandomSource) (m m' : Match) :
  play_round rs m = (m', Running) →
  ∃ m1, economy_phase rs m1 = (m', Running)
        ∧ player_gold m1 = player_gold m ∧ enemy_gold m1 = enemy_gold m
        ∧ match_weapons m1 = match_weapons m
        ∧ match_stdin m1 = match_stdin m.
Proof.
  unfold play_round. destruct (fight_round _ _ _ _ _ _) as [a [e|r]]; [done|].
  destruct (_ || _); [done|]. intros Heco. by eexists.
Qed.

(** C8, amended: the income of 5 + 2 = 7 goes to both balances before
    the upgrade calls of every round that returned "continue", and to
    none after a round that ended the match; 20 and one income make 27,
    and buying the upgrade that costs 6 leaves 21 (and two more points
    of damage on the weapon); an upgrade that costs more than the gold
    is refused: the shop prints "Not enough gold." and goes on with the
    same gold and the same weapons, so with 21 gold an upgrade that
    costs 30 leaves the 21 and the weapon as they were. *)
Theorem economy_scenario :
  ROUND_INCOME + 2 = 7
  ∧ (∀ rs m m',
       economy_phase rs m = (m', Running) →
       let shop := run_upgrade_shop UPGRADES (match_stdin m)
                                    (player_gold m + 7) player_weapon
                                    "Player" (match_weapons m) [] in
       let bought := ai_upgrade_weapon UPGRADES rs (match_calls m)
                                       (enemy_gold m + 7) enemy_weapon
                                       (shop_state shop) in
       shop_result shop = inr (player_gold m')
       ∧ bought_result bought = inr (enemy_gold m'))
  ∧ (∀ rs m m',
       play_round rs m = (m', Running) →
       ∃ m1, economy_phase rs m1 = (m', Running)
             ∧ player_gold m1 = player_gold m
             ∧ enemy_gold m1 = enemy_gold m
             ∧ match_weapons m1 = match_weapons m
             ∧ match_stdin m1 = match_stdin m)
  ∧ (∀ rs m m' result,
       play_round rs m = (m', Over result) →
       player_gold m' = player_gold m ∧ enemy_gold m' = enemy_gold m)
  ∧ (let shop := run_upgrade_shop UPGRADES ["1"; "d"]%string
                                  (20 + (ROUND_INCOME + 2)) 0%nat "Player"
                                  [Weapon.new] [] in
     20 + (ROUND_INCOME + 2) = 27
     ∧ shop_result shop = inr 21
     ∧ shop_state shop = [Weapon.mk 2 0 0])
  ∧ (∀ upgrades line stdin gold weapon owner ws stdout upgrade,
       read_choice upgrades line = inr (Pick upgrade) →
       gold < Upgrade.cost upgrade →
       run_upgrade_shop upgrades (line :: stdin) gold weapon owner ws stdout
       = run_upgrade_shop upgrades stdin gold weapon owner ws
                          (stdout ++ ["Not enough gold."%string]))
  ∧ (let shop := run_upgrade_shop costly_table ["1"; "d"]%string 21 0%nat
                                  "Player" [Weapon.new] [] in
     shop_result shop = inr 21
     ∧ shop_state shop = [Weapon.new]
     ∧ shop_stdout shop = ["Not enough gold."%string]).
Proof.
  split; [reflexivity|]. split; [|split; [|split; [|split; [|split]]]].
  - intros rs m m'. unfold economy_phase.
    assert (ROUND_INCOME + 2 = 7) as -> by reflexivity.
    destruct (shop_result _) as [e|pg]; [done|].
    destruct (bought_result _) as [e|eg]; [done|].
    by intros [= <-].
  - apply play_round_running.
  - apply play_round_over.
  - by repeat split.
  - intros upgrades line stdin gold weapon owner ws stdout upgrade Hline Hcost.
    simpl. rewrite Hline.
    apply Z.ltb_lt in Hcost. by rewrite Hcost.
  - by repeat split.
Qed.

Lemma economy_scenario_witness :
  read_choice costly_table " 1 "%string
  = inr (Pick (Upgrade.mk (Upgrade.damage 10) "+10 Weapon Damage" 30))
  ∧ 21 < 30
  ∧ run_upgrade_shop costly_table [" 1 "; "d"]%string 21 0%nat "Player"
                     [Weapon.new] []
    = run_upgrade_shop costly_table ["d"%string] 21 0%nat "Player"
                       [Weapon.new] ["Not enough gold."%string].
Proof.
  split; [reflexivity|]. split; [lia|].
  destruct economy_scenario as (_ & _ & _ & _ & _ & Hrefused & _).
  apply (Hrefused costly_table " 1 "%string ["d"%string] 21 0%nat
                  "Player"%string [Weapon.new] []
                  (Upgrade.mk (Upgrade.damage 10) "+10 Weapon Damage" 30));
    [reflexivity|reflexivity].
Defined.

(** * More of the program *)

(** ** [Team.is_defeated] *)

(** X1: a team is defeated exactly when its list of alive units is
    empty. *)
Theorem is_defeated_no_alive_units (us : list Unit.t) (tm : Team.t) :
  Team.is_defeated us tm = true ↔ Team.alive_units us tm = [].
Proof.
  unfold Team.is_defeated, Team.alive_units.
  induction (Team.units tm) as [|l units IH]; simpl; [done|].
  rewrite filter_cons, andb_true_iff, IH, negb_true_iff.
  case_decide as Halive.
  - apply Is_true_true in Halive. rewrite Halive.
    split; [by intros [? _]|done].
  - apply Is_true_false in Halive. rewrite Halive.
    split; [by intros [_ ?]|done].
Qed.

(** ** Reading a choice *)







(** ** What the unit shops buy *)

Lemma total_cost_app (picks picks' : list Template.t) :
  total_cost (picks ++ picks') = total_cost picks + total_cost picks'.
Proof. induction picks as [|t picks IH]; simpl; lia. Qed.

Lemma recruited_start (catalog : list Template.t) (gold : Z) (team : Team.t)
    (us : list Unit.t) :
  recruited catalog gold team us [] gold team us.
Proof.
  unfold recruited. simpl. rewrite !app_nil_r.
  repeat split; [done|lia|lia].
Qed.

Lemma recruited_step (catalog : list Template.t) (gold : Z) (team : Team.t)
    (us : list Unit.t) (picks : list Template.t) (gold' : Z) (team' : Team.t)
    (us' : list Unit.t) (pick : Template.t) :
  recruited catalog gold team us picks gold' team' us' →
  pick ∈ catalog →
  (length (Team.units team') < MAX_UNITS)%nat →
  recruited catalog gold team us (picks ++ [pick])
            (gold' - Template.cost pick)
            (recruit pick team' us').1 (recruit pick team' us').2.
Proof.
  intros (Hin & -> & Hunits & Hname & -> & Hcap) Hpick Hroom.
  unfold recruited. simpl.
  rewrite Hunits, fmap_app, !length_app, length_fmap, total_cost_app.
  rewrite (Nat.add_comm (length picks)), seq_S. simpl.
  rewrite Hunits, length_app, length_seq in Hroom.
  repeat split; try done.
  - apply Forall_app. by split; [|constructor].
  - by rewrite app_assoc.
  - by rewrite app_assoc.
  - lia.
  - rewrite length_seq. simpl. lia.
Qed.

(** X3: what [run_prematch_shop] and [ai_buy_units] leave behind is made
    of a list of picks from the catalog: the unit store has grown by one
    fresh unit per pick, in order; the team lists exactly these new
    units after its old members; the returned gold is the gold given
    minus the cost of the picks; and a team that had at most [MAX_UNITS]
    members still has. *)
Theorem unit_shops_account :
  (∀ catalog stdin gold team us stdout,
     let shop := run_prematch_shop catalog stdin gold team us stdout in
     ∃ picks gold',
       recruited catalog gold team us picks gold'
                 (shop_state shop).1 (shop_state shop).2
       ∧ ∀ g, shop_result shop = inr g → g = gold')
  ∧ (∀ fuel catalog rs calls gold team us bought,
       ai_buy_units fuel catalog rs calls gold team us = Some bought →
       ∃ picks gold',
         recruited catalog gold team us picks gold'
                   (bought_state bought).1 (bought_state bought).2
         ∧ ∀ g, bought_result bought = inr g → g = gold').
Proof.
  split.
  - intros catalog stdin gold team us stdout.
    destruct (run_prematch_shop_invariant
                (λ gold' team' us',
                   ∃ picks, recruited catalog gold team us picks
                                      gold' team' us') catalog)
      with stdin gold team us stdout as (gold' & [picks Hpicks] & Hresult).
    + intros g tm us' pick [picks Hpicks] Hpick _ Hroom.
      exists (picks ++ [pick]). by apply recruited_step.
    + exists []. apply recruited_start.
    + by exists picks, gold'.
  - intros fuel catalog rs calls gold team us bought Hbought.
    destruct (ai_buy_units_invariant
                (λ gold' team' us',
                   ∃ picks, recruited catalog gold team us picks
                                      gold' team' us') catalog rs)
      with fuel calls gold team us bought
      as (gold' & [picks Hpicks] & Hresult).
    + intros g tm us' pick [picks Hpicks] Hpick _ Hroom.
      exists (picks ++ [pick]). by apply recruited_step.
    + exists []. apply recruited_start.
    + done.
    + by exists picks, gold'.
Qed.

Lemma unit_shops_account_witness :
  ∃ bought,
    ai_buy_units 10 UNIT_CATALOG steady 0 START_GOLD side_b [swordsman; archer]
    = Some bought
    ∧ ∃ picks gold',
        recruited UNIT_CATALOG START_GOLD side_b [swordsman; archer] picks
                  gold' (bought_state bought).1 (bought_state bought).2
        ∧ ∀ g, bought_result bought = inr g → g = gold'.
Proof.
  eexists. split; [reflexivity|].
  apply (proj2 unit_shops_account 10%nat UNIT_CATALOG steady 0%nat START_GOLD
               side_b [swordsman; archer]).
  reflexivity.
Defined.

(** ** What the upgrade shops buy *)

Lemma total_price_app (ups ups' : list Upgrade.t) :
  total_price (ups ++ ups') = total_price ups + total_price ups'.
Proof. induction ups as [|up ups IH]; simpl; lia. Qed.

Lemma upgraded_snoc (weapon : loc) (ups : list Upgrade.t) (up : Upgrade.t)
    (ws : list Weapon.t) :
  upgraded weapon (ups ++ [up]) ws
  = Upgrade.apply_at up weapon (upgraded weapon ups ws).
Proof. unfold upgraded. by rewrite foldl_app. Qed.

Lemma upgraded_cons (weapon : loc) (up : Upgrade.t) (ups : list Upgrade.t)
    (ws : list Weapon.t) :
  upgraded weapon (up :: ups) ws
  = upgraded weapon ups (Upgrade.apply_at up weapon ws).
Proof. reflexivity. Qed.

Lemma apply_at_lookup (up : Upgrade.t) (weapon l : loc) (ws : list Weapon.t) :
  Upgrade.apply_at up weapon ws !! l
  = if decide (l = weapon) then Upgrade.apply up <$> ws !! l else ws !! l.
Proof.
  unfold Upgrade.apply_at. case_decide as Hl.
  - subst l. destruct (ws !! weapon) as [w|] eqn:Hw; [|by rewrite Hw].
    rewrite list_lookup_insert_eq; [done|]. by eapply lookup_lt_Some.
  - destruct (ws !! weapon); [|done]. by rewrite list_lookup_insert_ne.
Qed.

(** Upgrades change the weapon they are made on, and no other. *)
Lemma upgraded_lookup (weapon l : loc) (ups : list Upgrade.t)
    (ws : list Weapon.t) :
  upgraded weapon ups ws !! l
  = if decide (l = weapon)
    then (λ w, foldl (λ w' up, Upgrade.apply up w') w ups) <$> ws !! l
    else ws !! l.
Proof.
  revert ws. induction ups as [|up ups IH]; intros ws.
  - simpl. case_decide; [|done]. by destruct (ws !! l).
  - rewrite upgraded_cons, IH, apply_at_lookup. case_decide; [|done].
    by destruct (ws !! l).
Qed.

Lemma upgraded_length (weapon : loc) (ups : list Upgrade.t)
    (ws : list Weapon.t) :
  length (upgraded weapon ups ws) = length ws.
Proof.
  revert ws. induction ups as [|up ups IH]; intros ws; [done|].
  by rewrite upgraded_cons, IH, apply_at_length.
Qed.

(** A unit that holds another weapon, or none, is armed as before. *)
Lemma upgraded_armed (weapon : loc) (ups : list Upgrade.t)
    (ws : list Weapon.t) (u : Unit.t) :
  Unit.weapon u ≠ Some weapon →
  Unit.armed (upgraded weapon ups ws) u = Unit.armed ws u.
Proof.
  intros Hother. unfold Unit.armed.
  destruct (Unit.is_hero u); [|done].
  destruct (Unit.weapon u) as [l|]; [|done]. simpl.
  rewrite upgraded_lookup. case_decide; [congruence|done].
Qed.

(** X4: what [run_upgrade_shop] leaves behind is made of a list of
    upgrades from the table, made in order on the weapon it was given:
    the returned gold is the gold given minus their prices; the weapon
    store keeps its size, and every other weapon is as it was, so every
    unit that does not hold that weapon keeps its effective attack, crit
    and speed. *)
Theorem upgrade_shop_account (upgrades : list Upgrade.t)
    (stdin : list string) (gold : Z) (weapon : loc) (owner : string)
    (ws : list Weapon.t) (stdout : list string) :
  let shop := run_upgrade_shop upgrades stdin gold weapon owner ws stdout in
  ∃ ups,
    Forall (λ up, up ∈ upgrades) ups
    ∧ shop_state shop = upgraded weapon ups ws
    ∧ (∀ g, shop_result shop = inr g → g = gold - total_price ups)
    ∧ length (shop_state shop) = length ws
    ∧ (∀ l, l ≠ weapon → shop_state shop !! l = ws !! l)
    ∧ (∀ w, ws !! weapon = Some w →
            shop_state shop !! weapon
            = Some (foldl (λ w' up, Upgrade.apply up w') w ups))
    ∧ (∀ u, Unit.weapon u ≠ Some weapon →
            Unit.effective_attack (shop_state shop) u
            = Unit.effective_attack ws u
            ∧ Unit.effective_crit (shop_state shop) u
              = Unit.effective_crit ws u
            ∧ Unit.effective_speed (shop_state shop) u
              = Unit.effective_speed ws u).
Proof.
  intros shop.
  destruct (run_upgrade_shop_invariant
              (λ gold' ws',
                 ∃ ups, Forall (λ up, up ∈ upgrades) ups
                        ∧ ws' = upgraded weapon ups ws
                        ∧ gold' = gold - total_price ups)
              upgrades weapon owner)
    with stdin gold ws stdout as (gold' & (ups & Hups & Hws & ->) & Hresult).
  - intros g ws' up (ups & Hups & -> & ->) Hup _.
    exists (ups ++ [up]). rewrite upgraded_snoc, total_price_app. simpl.
    split; [apply Forall_app; by split; [|constructor]|].
    split; [done|lia].
  - exists []. simpl. split; [done|]. split; [done|lia].
  - exists ups. fold shop in Hws, Hresult. rewrite Hws.
    split; [done|]. split; [done|]. split; [done|].
    split; [apply upgraded_length|].
    split; [|split].
    + intros l Hl. rewrite upgraded_lookup. by case_decide.
    + intros w Hw. rewrite upgraded_lookup, Hw. by case_decide.
    + intros u Hu.
      unfold Unit.effective_attack, Unit.effective_crit,
        Unit.effective_speed.
      by rewrite upgraded_armed.
Qed.

(** X5: with the table of the program, upgrades never lower the damage
    bonus or the speed bonus of a weapon, and the bonuses are paid for:
    three gold for a point of damage and four for a point of speed, at
    least.  So the shop returns no more gold than it was given. *)
Theorem upgrades_are_paid (ups : list Upgrade.t) (w : Weapon.t) :
  Forall (λ up, up ∈ UPGRADES) ups →
  let w' := foldl (λ w' up, Upgrade.apply up w') w ups in
  Weapon.damage_bonus w ≤ Weapon.damage_bonus w'
  ∧ Weapon.speed_bonus w ≤ Weapon.speed_bonus w'
  ∧ 3 * (Weapon.damage_bonus w' - Weapon.damage_bonus w)
    + 4 * (Weapon.speed_bonus w' - Weapon.speed_bonus w)
    ≤ total_price ups.
Proof.
  revert w. induction ups as [|up ups IH]; intros w Hups; simpl; [lia|].
  apply Forall_cons in Hups as [Hup Hups].
  specialize (IH (Upgrade.apply up w) Hups). simpl in IH.
  unfold UPGRADES in Hup. rewrite !elem_of_cons, elem_of_nil in Hup.
  destruct Hup as [->|[->|[->|[]]]]; simpl in *; lia.
Qed.

Lemma upgrades_are_paid_witness :
  Forall (λ up, up ∈ UPGRADES)
         [Upgrade.mk (Upgrade.damage 2) "+2 Weapon Damage" 6;
          Upgrade.mk (Upgrade.speed 1) "+1 Weapon Speed" 4]
  ∧ Weapon.damage_bonus Weapon.new
    ≤ Weapon.damage_bonus
        (foldl (λ w' up, Upgrade.apply up w') Weapon.new
               [Upgrade.mk (Upgrade.damage 2) "+2 Weapon Damage" 6;
                Upgrade.mk (Upgrade.speed 1) "+1 Weapon Speed" 4]).
Proof.
  assert (Forall (λ up, up ∈ UPGRADES)
            [Upgrade.mk (Upgrade.damage 2) "+2 Weapon Damage" 6;
             Upgrade.mk (Upgrade.speed 1) "+1 Weapon Speed" 4]) as Hups.
  { repeat constructor; unfold UPGRADES; rewrite !elem_of_cons; auto. }
  split; [exact Hups|].
  exact (proj1 (upgrades_are_paid _ Weapon.new Hups)).
Defined.

Lemma upgrade_shop_account_witness :
  1%nat ≠ 0%nat
  ∧ shop_state (run_upgrade_shop UPGRADES ["1"; "d"]%string 30 0%nat "Player"
                                 [Weapon.new; Weapon.new] []) !! 1%nat
    = [Weapon.new; Weapon.new] !! 1%nat.
Proof.
  assert (1%nat ≠ 0%nat) as Hne by lia.
  split; [exact Hne|].
  destruct (upgrade_shop_account UPGRADES ["1"; "d"]%string 30 0%nat
              "Player"%string [Weapon.new; Weapon.new] [])
    as (ups & _ & _ & _ & _ & Hother & _).
  exact (Hother 1%nat Hne).
Defined.

(** ** The automated buyers *)

(** X6: [ai_upgrade_weapon] buys nothing, draws nothing and changes
    nothing when every upgrade costs more than the gold; otherwise it
    makes one draw and buys one upgrade of the table that the gold
    covers, on the weapon it was given.  It never raises. *)
Theorem ai_upgrade_weapon_buys_one (upgrades : list Upgrade.t)
    (rs : RandomSource) (calls : nat) (gold : Z) (weapon : loc)
    (ws : list Weapon.t) :
  let bought := ai_upgrade_weapon upgrades rs calls gold weapon ws in
  (Forall (λ up, gold < Upgrade.cost up) upgrades →
   bought = Build_Bought (inr gold) ws calls)
  ∧ (Exists (λ up, Upgrade.cost up ≤ gold) upgrades →
     ∃ up, up ∈ upgrades ∧ Upgrade.cost up ≤ gold
           ∧ bought = Build_Bought (inr (gold - Upgrade.cost up))
                                   (Upgrade.apply_at up weapon ws)
                                   (S calls)).
Proof.
  intros bought. subst bought. unfold ai_upgrade_weapon.
  destruct (filter _ upgrades) as [|u0 affordable] eqn:Hfilter.
  - split; [done|]. intros Hsome.
    apply Exists_exists in Hsome as (up & Hin & Hcost).
    assert (up ∈ filter (λ u, Upgrade.cost u ≤ gold) upgrades) as Hup
      by (by apply list_elem_of_filter).
    rewrite Hfilter in Hup. by apply not_elem_of_nil in Hup.
  - set (up := choice rs calls u0 (u0 :: affordable)).
    assert (up ∈ u0 :: affordable) as Hup by (by apply choice_elem_of).
    rewrite <-Hfilter in Hup. apply list_elem_of_filter in Hup as [Hcost Hin].
    split; [|intros _; by exists up].
    intros Hnone. rewrite Forall_forall in Hnone.
    specialize (Hnone up Hin). lia.
Qed.

Lemma ai_upgrade_weapon_buys_one_witness :
  Forall (λ up, 3 < Upgrade.cost up) UPGRADES
  ∧ ai_upgrade_weapon UPGRADES steady 7 3 0%nat [Weapon.new]
    = Build_Bought (inr 3) [Weapon.new] 7.
Proof.
  assert (Forall (λ up, 3 < Upgrade.cost up) UPGRADES) as Hnone
    by (repeat constructor).
  split; [exact Hnone|].
  exact (proj1 (ai_upgrade_weapon_buys_one UPGRADES steady 7 3 0%nat
                  [Weapon.new]) Hnone).
Defined.

Lemma min_cost_lowest (c0 : Template.t) (cs : list Template.t) :
  ∃ lowest, min_cost (c0 :: cs) = inr lowest
            ∧ Forall (λ t, lowest ≤ Template.cost t) (c0 :: cs).
Proof.
  assert (∀ cs' m, Forall (λ t, foldl (λ m t, Z.min m (Template.cost t)) m cs'
                                ≤ Template.cost t) cs'
                   ∧ foldl (λ m t, Z.min m (Template.cost t)) m cs' ≤ m)
    as Hmin.
  { induction cs' as [|t cs' IH]; intros m; simpl; [by split|].
    destruct (IH (Z.min m (Template.cost t))) as [Hall Hle].
    split; [|lia]. constructor; [lia|done]. }
  eexists. split; [done|].
  destruct (Hmin cs (Template.cost c0)) as [Hall Hle]. by constructor.
Qed.

Lemma ai_buy_units_exit (fuel : nat) (c0 : Template.t)
    (cs : list Template.t) (rs : RandomSource) (calls : nat) (gold : Z)
    (team : Team.t) (us : list Unit.t)
    (bought : Bought (Team.t * list Unit.t)) (lowest : Z) :
  min_cost (c0 :: cs) = inr lowest →
  ai_buy_units fuel (c0 :: cs) rs calls gold team us = Some bought →
  ∃ g, bought_result bought = inr g
       ∧ (g < lowest
          ∨ (MAX_UNITS ≤ length (Team.units (bought_state bought).1))%nat).
Proof.
  intros [= <-]. revert calls gold team us.
  induction fuel as [|fuel IH]; intros calls gold team us; simpl;
    destruct (_ && _) eqn:Hgo; try done.
  - intros [= <-]. simpl. eexists. split; [done|].
    apply andb_false_iff in Hgo as [Hgold|Hroom].
    + left. by apply Z.leb_gt in Hgold.
    + right. by apply Nat.ltb_ge in Hroom.
  - destruct (gold <? _); apply IH.
  - intros [= <-]. simpl. eexists. split; [done|].
    apply andb_false_iff in Hgo as [Hgold|Hroom].
    + left. by apply Z.leb_gt in Hgold.
    + right. by apply Nat.ltb_ge in Hroom.
Qed.

(** X7: when [ai_buy_units] returns, the gold left is below the price of
    the cheapest unit of the catalog, or the team is full; it raises
    only on an empty catalog (the [ValueError] of [min]), before
    anything is bought. *)
Theorem ai_buy_units_spends_all (fuel : nat) (catalog : list Template.t)
    (rs : RandomSource) (calls : nat) (gold : Z) (team : Team.t)
    (us : list Unit.t) (bought : Bought (Team.t * list Unit.t)) :
  ai_buy_units fuel catalog rs calls gold team us = Some bought →
  (∀ g, bought_result bought = inr g →
        ∃ lowest, min_cost catalog = inr lowest
                  ∧ Forall (λ t, lowest ≤ Template.cost t) catalog
                  ∧ (g < lowest
                     ∨ (MAX_UNITS
                        ≤ length (Team.units (bought_state bought).1))%nat))
  ∧ (∀ e, bought_result bought = inl e →
          catalog = [] ∧ e = Py.ValueError
          ∧ bought = Build_Bought (inl Py.ValueError) (team, us) calls).
Proof.
  destruct catalog as [|c0 cs].
  { destruct fuel; simpl; intros [= <-]; (split; [done|]);
      by intros e [= <-]. }
  intros Hbought.
  destruct (min_cost_lowest c0 cs) as (lowest & Hlowest & Hall).
  destruct (ai_buy_units_exit fuel c0 cs rs calls gold team us bought lowest
              Hlowest Hbought) as (g & Hg & Hexit).
  rewrite Hg. split; [|done].
  intros g' [= <-]. by exists lowest.
Qed.

Lemma ai_buy_units_spends_all_witness :
  ∃ bought,
    ai_buy_units 10 UNIT_CATALOG steady 0 9 side_b [swordsman; archer]
    = Some bought
    ∧ bought_result bought = inr 1
    ∧ ∃ lowest, min_cost UNIT_CATALOG = inr lowest
                ∧ Forall (λ t, lowest ≤ Template.cost t) UNIT_CATALOG
                ∧ (1 < lowest
                   ∨ (MAX_UNITS
                      ≤ length (Team.units (bought_state bought).1))%nat).
Proof.
  eexists. split; [reflexivity|]. split; [reflexivity|].
  apply (proj1 (ai_buy_units_spends_all 10 UNIT_CATALOG steady 0 9 side_b
                  [swordsman; archer] _ eq_refl) 1).
  reflexivity.
Defined.

(** ** Who hits whom *)

Lemma log_grows_not (log : list Hit) (h : Hit) : log ≠ log ++ [h].
Proof.
  intros Heq. apply (f_equal length) in Heq.
  rewrite length_app in Heq. simpl in Heq. lia.
Qed.

(** The hit of a turn, if it makes one, is on one of the targets. *)
Lemma turn_target (rs : RandomSource) (ws : list Weapon.t)
    (player enemy : Team.t) (attacker : loc) (a : Arena) (h : Hit) :
  arena_log (turn rs ws player enemy attacker a).1 = arena_log a ++ [h] →
  hit_attacker h = attacker
  ∧ Team.alive_at (arena_units a) attacker = true
  ∧ hit_target h ∈ targets_of ws (arena_units a) player enemy attacker.
Proof.
  unfold turn, targets_of, Team.alive_at.
  destruct (arena_units a !! attacker) as [att|] eqn:Hatt;
    [|by intros ?%log_grows_not].
  destruct (Unit.is_alive att) eqn:Halive; simpl;
    [|by intros ?%log_grows_not].
  destruct (if unit_in _ _ _ _ then _ else _) as [|t0 targets'] eqn:Htargets;
    [by intros ?%log_grows_not|].
  set (target := choice rs (arena_calls a) t0 (t0 :: targets')).
  assert (target ∈ t0 :: targets') as Hin by (by apply choice_elem_of).
  destruct (arena_units a !! target) as [tgt|];
    [|by intros ?%log_grows_not].
  destruct (PrimFloat.ltb _ _);
    [destruct (crit_damage _) as [e|damage]; [by intros ?%log_grows_not|]|];
    simpl; intros [_ [= <-]]%app_inj_tail; by simpl.
Qed.

Lemma unit_eqb_name (ws : list Weapon.t) (u u' : Unit.t) :
  Unit.name u ≠ Unit.name u' → Unit.eqb ws u u' = false.
Proof.
  intros Hname. unfold Unit.eqb.
  apply String.eqb_neq in Hname. by rewrite Hname.
Qed.

Lemma unit_in_equal (ws : list Weapon.t) (us : list Unit.t)
    (attacker l : loc) (units : list loc) (u att : Unit.t) :
  l ∈ units → us !! l = Some u → us !! attacker = Some att →
  Unit.eqb ws u att = true →
  unit_in ws us attacker units = true.
Proof.
  intros Hin Hu Hatt Heq. unfold unit_in. apply existsb_exists.
  exists l. split; [by apply list_elem_of_In|].
  unfold loc in *. rewrite Hu, Hatt, Heq. apply orb_true_r.
Qed.

Lemma unit_in_stranger (ws : list Weapon.t) (us : list Unit.t)
    (attacker : loc) (units : list loc) (att : Unit.t) :
  attacker ∉ units → us !! attacker = Some att →
  (∀ l u, l ∈ units → us !! l = Some u → Unit.name u ≠ Unit.name att) →
  unit_in ws us attacker units = false.
Proof.
  intros Hout Hatt Hnames. unfold unit_in.
  apply not_true_iff_false. rewrite existsb_exists.
  intros (l & Hin%list_elem_of_In & Hl).
  apply orb_prop in Hl as [Hsame|Heq].
  - apply Nat.eqb_eq in Hsame. by subst.
  - unfold loc in *. destruct (us !! l) as [u|] eqn:Hu; [|done].
    rewrite Hatt in Heq.
    by rewrite (unit_eqb_name ws u att (Hnames l u Hin Hu)) in Heq.
Qed.

(** X8: the unit that a turn hits is alive and is picked by team: a
    member of the player's roster hits an alive enemy unit; a unit off
    that roster whose name no player unit bears hits an alive player
    unit.  But membership is decided by equality of the fields, so a
    unit off the player's roster that is equal, field by field, to some
    player unit hits an alive unit of the enemy roster as well. *)
Theorem who_hits_whom (rs : RandomSource) (ws : list Weapon.t)
    (player enemy : Team.t) (attacker : loc) (a : Arena) (h : Hit) :
  let us := arena_units a in
  arena_log (turn rs ws player enemy attacker a).1 = arena_log a ++ [h] →
  hit_attacker h = attacker
  ∧ Team.alive_at us attacker = true
  ∧ Team.alive_at us (hit_target h) = true
  ∧ (attacker ∈ Team.units player →
     hit_target h ∈ Team.alive_units us enemy)
  ∧ (attacker ∉ Team.units player →
     (∀ l u att, l ∈ Team.units player → us !! l = Some u →
                 us !! attacker = Some att → Unit.name u ≠ Unit.name att) →
     hit_target h ∈ Team.alive_units us player)
  ∧ (∀ l u att, l ∈ Team.units player → us !! l = Some u →
                us !! attacker = Some att → Unit.eqb ws u att = true →
                hit_target h ∈ Team.alive_units us enemy).
Proof.
  intros us Hlog.
  destruct (turn_target rs ws player enemy attacker a h Hlog)
    as (Hattacker & Halive & Htarget).
  unfold targets_of in Htarget. fold us in Htarget, Halive.
  split; [done|]. split; [done|]. split; [|split; [|split]].
  - destruct (unit_in _ _ _ _);
      apply alive_units_alive in Htarget as (_ & tgt & Htgt & Htgt_alive);
      unfold Team.alive_at; by rewrite Htgt.
  - intros Hin. by rewrite unit_in_self in Htarget.
  - intros Hout Hnames.
    unfold Team.alive_at in Halive.
    destruct (us !! attacker) as [att|] eqn:Hatt; [|done].
    rewrite (unit_in_stranger ws us attacker _ att) in Htarget; [done..|].
    intros l u Hl Hu. by eapply Hnames.
  - intros l u att Hl Hu Hatt Heq.
    by rewrite (unit_in_equal ws us attacker l _ u att) in Htarget.
Qed.

Lemma who_hits_whom_witness :
  ∃ h,
    arena_log (turn steady [] side_a side_b 1%nat
                    (Build_Arena [swordsman; swordsman] 0 [])).1
    = [] ++ [h]
    ∧ 0%nat ∈ Team.units side_a
    ∧ [swordsman; swordsman] !! 0%nat = Some swordsman
    ∧ [swordsman; swordsman] !! 1%nat = Some swordsman
    ∧ Unit.eqb [] swordsman swordsman = true
    ∧ hit_target h
      ∈ Team.alive_units [swordsman; swordsman] side_b.
Proof.
  eexists. split; [reflexivity|].
  assert (0%nat ∈ Team.units side_a) as Hin by (by left).
  assert (Unit.eqb [] swordsman swordsman = true) as Heq by reflexivity.
  split; [exact Hin|]. split; [reflexivity|]. split; [reflexivity|].
  split; [exact Heq|].
  refine (proj2 (proj2 (proj2 (proj2 (proj2
            (who_hits_whom steady [] side_a side_b 1%nat
               (Build_Arena [swordsman; swordsman] 0 []) _ eq_refl)))))
            0%nat swordsman swordsman Hin eq_refl eq_refl Heq).
Defined.

(** ** The health and the attacks of a round *)

Lemma total_health_insert (us : list Unit.t) (l : loc) (u u' : Unit.t) :
  us !! l = Some u →
  total_health (<[l := u']> us) = total_health us - Unit.hp u + Unit.hp u'.
Proof.
  unfold loc in *.
  revert l. induction us as [|u0 us IH]; intros [|l] Hu; try done.
  - injection Hu as ->.
    change (Unit.hp u' + total_health us
            = Unit.hp u + total_health us - Unit.hp u + Unit.hp u'). lia.
  - change (Unit.hp u0 + total_health (<[l := u']> us)
            = Unit.hp u0 + total_health us - Unit.hp u + Unit.hp u').
    rewrite (IH l Hu). lia.
Qed.

Lemma total_health_nonneg (us : list Unit.t) :
  Forall healthy us → 0 ≤ total_health us.
Proof.
  induction 1 as [|u us [Hu _] _ IH]; simpl; lia.
Qed.

(** A turn that hits takes at least one point of health; a turn makes at
    most one hit, and two draws when it gets as far as hitting. *)
Lemma turn_tally (rs : RandomSource) (ws : list Weapon.t)
    (player enemy : Team.t) (attacker : loc) (a : Arena) :
  let a' := (turn rs ws player enemy attacker a).1 in
  let flow := (turn rs ws player enemy attacker a).2 in
  ∃ hits : nat,
    length (arena_log a') = (length (arena_log a) + hits)%nat
    ∧ (hits ≤ 1)%nat
    ∧ total_health (arena_units a') + Z.of_nat hits
      ≤ total_health (arena_units a)
    ∧ ((∀ e, flow ≠ Raise e) →
       arena_calls a' = (arena_calls a + 2 * hits)%nat).
Proof.
  turn_cases rs ws player enemy attacker a.
  - exists 0%nat. repeat split; [lia..|]. intros _. lia.
  - exists 0%nat. repeat split; [lia..|]. intros Hflow. by destruct (Hflow e).
  - exists 1%nat. rewrite length_app.
    rewrite (total_health_insert _ _ tgt) by done.
    simpl. apply is_alive_pos in Htgt_alive.
    split; [done|]. split; [done|]. split; [lia|]. intros _. lia.
Qed.

Lemma fight_loop_tally (rs : RandomSource) (ws : list Weapon.t)
    (player enemy : Team.t) (order : list loc) (a : Arena) :
  let a' := (fight_loop rs ws player enemy order a).1 in
  ∃ hits : nat,
    length (arena_log a') = (length (arena_log a) + hits)%nat
    ∧ (hits ≤ length order)%nat
    ∧ total_health (arena_units a') + Z.of_nat hits
      ≤ total_health (arena_units a)
    ∧ ((fight_loop rs ws player enemy order a).2 = None →
       arena_calls a' = (arena_calls a + 2 * hits)%nat).
Proof.
  revert a. induction order as [|attacker order IH]; intros a; simpl.
  - exists 0%nat. repeat split; lia.
  - destruct (turn_tally rs ws player enemy attacker a)
      as (hits & Hlog & Hone & Hhealth & Hcalls).
    destruct (turn rs ws player enemy attacker a) as [a1 [| |e]]; simpl in *.
    + destruct (IH a1) as (hits' & Hlog' & Hmany & Hhealth' & Hcalls').
      exists (hits + hits')%nat. repeat split; [lia..|].
      intros Hnone. rewrite (Hcalls' Hnone), Hcalls by done. lia.
    + exists hits. repeat split; [lia..|]. intros _. by apply Hcalls.
    + exists hits. repeat split; [lia..|]. done.
Qed.

Lemma fight_round_result (rs : RandomSource) (ws : list Weapon.t)
    (player enemy : Team.t) (round_num : Z) (a : Arena) (result : string) :
  (fight_round rs ws player enemy round_num a).2 = inr result →
  (fight_loop rs ws player enemy
     (fighters ws (arena_units a) player enemy) a).2 = None
  ∧ result
    = outcome
        (length (Team.alive_units
                   (arena_units (fight_round rs ws player enemy round_num a).1)
                   player))
        (length (Team.alive_units
                   (arena_units (fight_round rs ws player enemy round_num a).1)
                   enemy)).
Proof.
  unfold fight_round.
  destruct (fight_loop _ _ _ _ _ _) as [a' [e|]]; simpl; [done|].
  by intros [= <-].
Qed.

Lemma fighters_length (ws : list Weapon.t) (us : list Unit.t)
    (player enemy : Team.t) :
  length (fighters ws us player enemy)
  = (length (Team.alive_units us player)
     + length (Team.alive_units us enemy))%nat.
Proof.
  unfold fighters. by rewrite sort_desc_perm, length_app.
Qed.

Lemma fight_round_tally (rs : RandomSource) (ws : list Weapon.t)
    (player enemy : Team.t) (round_num : Z) (a : Arena) :
  let after := fight_round rs ws player enemy round_num a in
  ∃ hits : nat,
    length (arena_log after.1) = (length (arena_log a) + hits)%nat
    ∧ (hits ≤ length (Team.alive_units (arena_units a) player)
              + length (Team.alive_units (arena_units a) enemy))%nat
    ∧ total_health (arena_units after.1) + Z.of_nat hits
      ≤ total_health (arena_units a)
    ∧ (∀ result, after.2 = inr result →
                 arena_calls after.1 = (arena_calls a + 2 * hits)%nat).
Proof.
  intros after. subst after. rewrite fight_round_arena.
  destruct (fight_loop_tally rs ws player enemy
              (fighters ws (arena_units a) player enemy) a)
    as (hits & Hlog & Hmany & Hhealth & Hcalls).
  exists hits. rewrite fighters_length in Hmany.
  repeat split; [done..|].
  intros result Hresult. apply Hcalls.
  by apply fight_round_result in Hresult as [? _].
Qed.

(** X9: every attack of a round takes at least one point of health from
    the units: the total health after the round, plus the number of
    attacks made, is at most the total health before.  A round makes at
    most one attack per unit alive at its start, and when it returns it
    has made two draws from the generator per attack. *)
Theorem attacks_cost_health (rs : RandomSource) (ws : list Weapon.t)
    (player enemy : Team.t) (round_num : Z) (a : Arena) :
  let after := fight_round rs ws player enemy round_num a in
  ∃ attacks : list Hit,
    arena_log after.1 = arena_log a ++ attacks
    ∧ (length attacks
       ≤ length (Team.alive_units (arena_units a) player)
         + length (Team.alive_units (arena_units a) enemy))%nat
    ∧ total_health (arena_units after.1) + Z.of_nat (length attacks)
      ≤ total_health (arena_units a)
    ∧ (∀ result, after.2 = inr result →
                 arena_calls after.1
                 = (arena_calls a + 2 * length attacks)%nat).
Proof.
  intros after.
  destruct (fight_round_log rs ws player enemy round_num a)
    as (attacks & Hlog & _).
  destruct (fight_round_tally rs ws player enemy round_num a)
    as (hits & Hlen & Hmany & Hhealth & Hcalls).
  fold after in Hlog, Hlen, Hmany, Hhealth, Hcalls.
  exists attacks. split; [done|].
  assert (length attacks = hits) as ->
    by (rewrite Hlog, length_app in Hlen; lia).
  done.
Qed.

Lemma attacks_cost_health_witness :
  (fight_round steady [] side_a side_b 1 duel).2 = inr "continue"%string
  ∧ ∃ attacks,
      arena_log (fight_round steady [] side_a side_b 1 duel).1
      = arena_log duel ++ attacks
      ∧ arena_calls (fight_round steady [] side_a side_b 1 duel).1
        = (arena_calls duel + 2 * length attacks)%nat.
Proof.
  assert ((fight_round steady [] side_a side_b 1 duel).2
          = inr "continue"%string) as Hresult by reflexivity.
  split; [exact Hresult|].
  destruct (attacks_cost_health steady [] side_a side_b 1 duel)
    as (attacks & Hlog & _ & _ & Hcalls).
  exists attacks. split; [exact Hlog|].
  exact (Hcalls "continue"%string Hresult).
Defined.

(** ** The dead and the living *)

Lemma aged_alive (us us' : list Unit.t) (l : loc) :
  Forall2 worn_down us us' →
  Team.alive_at us' l = true → Team.alive_at us l = true.
Proof.
  intros Haged. unfold Team.alive_at, loc in *.
  destruct (us' !! l) as [u'|] eqn:Hu'; [|done].
  destruct (Forall2_lookup_r _ _ _ _ _ Haged Hu') as (u & -> & [_ Hhp]).
  rewrite !is_alive_pos. lia.
Qed.

Lemma aged_alive_units (us us' : list Unit.t) (tm : Team.t) (l : loc) :
  Forall2 worn_down us us' →
  l ∈ Team.alive_units us' tm → l ∈ Team.alive_units us tm.
Proof.
  intros Haged. unfold Team.alive_units. rewrite !list_elem_of_filter.
  intros [Halive Hin]. split; [|done].
  apply Is_true_true. apply Is_true_true in Halive. by eapply aged_alive.
Qed.

Lemma aged_alive_count (us us' : list Unit.t) (tm : Team.t) :
  Forall2 worn_down us us' →
  Team.alive_units us tm = [] → Team.alive_units us' tm = [].
Proof.
  intros Haged Hnone.
  destruct (Team.alive_units us' tm) as [|l ls] eqn:Halive; [done|].
  assert (l ∈ Team.alive_units us tm) as Hl.
  { apply (aged_alive_units us us'); [done|]. rewrite Halive. by left. }
  rewrite Hnone in Hl. by apply not_elem_of_nil in Hl.
Qed.

(** X10: no unit comes back to life: a unit alive after a round, or
    after a whole pass of the loop of [main], was alive before it; so a
    team without alive units stays without. *)
Theorem dead_stay_dead :
  (∀ rs ws player enemy round_num a tm l,
     l ∈ Team.alive_units
           (arena_units (fight_round rs ws player enemy round_num a).1) tm →
     l ∈ Team.alive_units (arena_units a) tm)
  ∧ (∀ rs m tm l,
       l ∈ Team.alive_units (match_units (play_round rs m).1) tm →
       l ∈ Team.alive_units (match_units m) tm)
  ∧ (∀ rs m tm,
       Team.is_defeated (match_units m) tm = true →
       Team.is_defeated (match_units (play_round rs m).1) tm = true).
Proof.
  assert (∀ rs m, Forall2 worn_down (match_units m)
                          (match_units (play_round rs m).1)) as Hpass.
  { intros rs m. unfold play_round.
    pose proof (fight_round_aged rs (match_weapons m) (player_team m)
                  (enemy_team m) (round_num m)
                  (Build_Arena (match_units m) (match_calls m) [])) as Haged.
    destruct (fight_round _ _ _ _ _ _) as [a [e|result]]; [done|].
    destruct (_ || _); [done|].
    unfold economy_phase. simpl. by repeat case_match. }
  split; [|split].
  - intros rs ws player enemy round_num a tm l.
    apply aged_alive_units, fight_round_aged.
  - intros rs m tm l. apply aged_alive_units, Hpass.
  - intros rs m tm Hdefeated.
    assert (∀ us, Team.is_defeated us tm = true
                  ↔ Team.alive_units us tm = []) as Hiff.
    { intros us. unfold Team.is_defeated, Team.alive_units.
      induction (Team.units tm) as [|l units IH]; simpl; [done|].
      rewrite filter_cons, andb_true_iff, IH, negb_true_iff.
      case_decide as Halive.
      - apply Is_true_true in Halive. rewrite Halive.
        split; [by intros [? _]|done].
      - apply Is_true_false in Halive. rewrite Halive.
        split; [by intros [_ ?]|done]. }
    apply Hiff. apply Hiff in Hdefeated.
    by apply (aged_alive_count (match_units m)).
Qed.

Lemma dead_stay_dead_witness :
  Team.is_defeated (arena_units duel_lost) side_a = true
  ∧ Team.is_defeated
      (match_units
         (play_round steady
            {| match_units := arena_units duel_lost;
               match_weapons := []; player_team := side_a;
               enemy_team := side_b; player_gold := 0; enemy_gold := 0;
               round_num := 1; match_calls := 0; match_stdin := [] |}).1)
      side_a = true.
Proof.
  split; [reflexivity|].
  apply (proj2 (proj2 dead_stay_dead) steady
               {| match_units := arena_units duel_lost;
                  match_weapons := []; player_team := side_a;
                  enemy_team := side_b; player_gold := 0; enemy_gold := 0;
                  round_num := 1; match_calls := 0; match_stdin := [] |}
               side_a).
  reflexivity.
Defined.

(** ** Progress *)

(** With an alive unit on either side, an alive attacker has a target:
    its turn hits, unless the crit damage raises. *)
Lemma turn_attacks (rs : RandomSource) (ws : list Weapon.t)
    (player enemy : Team.t) (attacker : loc) (a : Arena) :
  Team.alive_at (arena_units a) attacker = true →
  Team.alive_units (arena_units a) player ≠ [] →
  Team.alive_units (arena_units a) enemy ≠ [] →
  (∃ e, (turn rs ws player enemy attacker a).2 = Raise e)
  ∨ ((turn rs ws player enemy attacker a).2 = Next
     ∧ length (arena_log (turn rs ws player enemy attacker a).1)
       = S (length (arena_log a))).
Proof.
  unfold Team.alive_at, turn. intros Halive Hplayer Henemy.
  destruct (arena_units a !! attacker) as [att|] eqn:Hatt; [|done].
  rewrite Halive. simpl.
  destruct (if unit_in _ _ _ _ then _ else _) as [|t0 targets'] eqn:Htargets;
    [by destruct (unit_in _ _ _ _)|].
  set (target := choice rs (arena_calls a) t0 (t0 :: targets')).
  assert (target ∈ t0 :: targets') as Hin by (by apply choice_elem_of).
  assert (∃ tgt, arena_units a !! target = Some tgt) as [tgt Htgt].
  { rewrite <-Htargets in Hin.
    destruct (unit_in _ _ _ _);
      apply alive_units_alive in Hin as (_ & tgt & Htgt & _); by eexists. }
  rewrite Htgt.
  destruct (PrimFloat.ltb _ _);
    [destruct (crit_damage _) as [e|damage]; [left; by eexists|]|];
    right; simpl; rewrite length_app; simpl; split; (done || lia).
Qed.

(** A round that starts with an alive unit on either side and returns,
    has taken health from the units. *)
Lemma fight_round_progress (rs : RandomSource) (ws : list Weapon.t)
    (player enemy : Team.t) (round_num : Z) (a : Arena) (result : string) :
  Team.alive_units (arena_units a) player ≠ [] →
  Team.alive_units (arena_units a) enemy ≠ [] →
  (fight_round rs ws player enemy round_num a).2 = inr result →
  total_health (arena_units (fight_round rs ws player enemy round_num a).1)
  < total_health (arena_units a).
Proof.
  intros Hplayer Henemy Hresult.
  apply fight_round_result in Hresult as [Hnone _].
  rewrite fight_round_arena.
  destruct (fighters_first ws (arena_units a) player enemy)
    as (attacker & order & Horder & Hin).
  { destruct (Team.alive_units (arena_units a) player); [done|].
    by simpl. }
  rewrite Horder in *. simpl in *.
  assert (Team.alive_at (arena_units a) attacker = true) as Halive.
  { apply elem_of_app in Hin as [Hin|Hin];
      apply alive_units_alive in Hin as (_ & att & Hatt & Hatt_alive);
      unfold Team.alive_at; by rewrite Hatt. }
  destruct (turn_attacks rs ws player enemy attacker a Halive Hplayer Henemy)
    as [[e He]|[Hnext Hhit]];
    destruct (turn_tally rs ws player enemy attacker a)
      as (hits & Hlog & _ & Hhealth & _);
    destruct (turn rs ws player enemy attacker a) as [a1 flow];
    simpl in *; subst flow; [done|].
  destruct (fight_loop_tally rs ws player enemy order a1)
    as (hits' & _ & _ & Hhealth' & _).
  lia.
Qed.

(** X11: a round that starts with an alive unit on either side and
    returns has made at least one attack, and the total health of the
    units is lower after it than before. *)
Theorem round_makes_progress (rs : RandomSource) (ws : list Weapon.t)
    (player enemy : Team.t) (round_num : Z) (a : Arena) (result : string) :
  let after := fight_round rs ws player enemy round_num a in
  Team.alive_units (arena_units a) player ≠ [] →
  Team.alive_units (arena_units a) enemy ≠ [] →
  after.2 = inr result →
  total_health (arena_units after.1) < total_health (arena_units a)
  ∧ (length (arena_log a) < length (arena_log after.1))%nat.
Proof.
  intros after Hplayer Henemy Hresult. split.
  - by eapply fight_round_progress.
  - subst after. apply fight_round_result in Hresult as [Hnone _].
    rewrite fight_round_arena.
    destruct (fighters_first ws (arena_units a) player enemy)
      as (attacker & order & Horder & Hin).
    { destruct (Team.alive_units (arena_units a) player); [done|].
      by simpl. }
    rewrite Horder in *. simpl in *.
    assert (Team.alive_at (arena_units a) attacker = true) as Halive.
    { apply elem_of_app in Hin as [Hin|Hin];
        apply alive_units_alive in Hin as (_ & att & Hatt & Hatt_alive);
        unfold Team.alive_at; by rewrite Hatt. }
    destruct (turn_attacks rs ws player enemy attacker a Halive Hplayer
                Henemy) as [[e He]|[Hnext Hhit]];
      destruct (turn rs ws player enemy attacker a) as [a1 flow];
      simpl in *; subst flow; [done|].
    destruct (fight_loop_tally rs ws player enemy order a1)
      as (hits' & Hlog' & _).
    lia.
Qed.

Lemma round_makes_progress_witness :
  Team.alive_units (arena_units duel) side_a ≠ []
  ∧ Team.alive_units (arena_units duel) side_b ≠ []
  ∧ (fight_round steady [] side_a side_b 1 duel).2 = inr "continue"%string
  ∧ total_health (arena_units (fight_round steady [] side_a side_b 1 duel).1)
    < total_health (arena_units duel).
Proof.
  assert (Team.alive_units (arena_units duel) side_a ≠ []) as Ha
    by (by vm_compute).
  assert (Team.alive_units (arena_units duel) side_b ≠ []) as Hb
    by (by vm_compute).
  assert ((fight_round steady [] side_a side_b 1 duel).2
          = inr "continue"%string) as Hresult by reflexivity.
  split; [exact Ha|]. split; [exact Hb|]. split; [exact Hresult|].
  exact (proj1 (round_makes_progress steady [] side_a side_b 1 duel
                  "continue"%string Ha Hb Hresult)).
Defined.

(** ** The end of a match *)

Lemma play_round_units (rs : RandomSource) (m : Match) :
  match_units (play_round rs m).1
  = arena_units
      (fight_round rs (match_weapons m) (player_team m) (enemy_team m)
         (round_num m)
         {| arena_units := match_units m; arena_calls := match_calls m;
            arena_log := [] |}).1.
Proof.
  unfold play_round.
  destruct (fight_round _ _ _ _ _ _) as [a [e|result]]; [done|].
  destruct (_ || _); [done|].
  unfold economy_phase. simpl. by repeat case_match.
Qed.

Lemma play_round_healthy (rs : RandomSource) (m : Match) :
  Forall healthy (match_units m) →
  Forall healthy (match_units (play_round rs m).1).
Proof.
  intros Hm. rewrite play_round_units. by apply fight_round_healthy.
Qed.

(** A pass of the loop that goes round again has seen a round return
    "continue". *)
Lemma play_round_continue (rs : RandomSource) (m m' : Match) :
  play_round rs m = (m', Running) →
  (fight_round rs (match_weapons m) (player_team m) (enemy_team m)
     (round_num m)
     {| arena_units := match_units m; arena_calls := match_calls m;
        arena_log := [] |}).2 = inr "continue"%string.
Proof.
  unfold play_round.
  pose proof (fight_round_result rs (match_weapons m) (player_team m)
                (enemy_team m) (round_num m)
                (Build_Arena (match_units m) (match_calls m) [])) as Hresult.
  destruct (fight_round _ _ _ _ _ _) as [a [e|result]]; [done|].
  destruct (Hresult result eq_refl) as [_ ->]. simpl.
  unfold outcome. by repeat case_match.
Qed.

Lemma play_round_progress (rs : RandomSource) (m m' : Match) :
  play_round rs m = (m', Running) →
  total_health (match_units m') < total_health (match_units m).
Proof.
  intros Hround. pose proof (play_round_continue rs m m' Hround) as Hcont.
  pose proof (play_round_units rs m) as Hunits.
  rewrite Hround in Hunits. simpl in Hunits. rewrite Hunits.
  set (a := {| arena_units := match_units m; arena_calls := match_calls m;
               arena_log := [] |}) in *.
  pose proof (fight_round_aged rs (match_weapons m) (player_team m)
                (enemy_team m) (round_num m) a) as Haged.
  destruct (fight_round_result _ _ _ _ _ _ _ Hcont) as [_ Hout].
  apply (fight_round_progress rs (match_weapons m) (player_team m)
           (enemy_team m) (round_num m) a "continue"%string); [| |done].
  - intros Hnone. apply (aged_alive_count _ _ _ Haged) in Hnone.
    rewrite Hnone in Hout. simpl in Hout. unfold outcome in Hout.
    by repeat case_match.
  - intros Hnone. apply (aged_alive_count _ _ _ Haged) in Hnone.
    rewrite Hnone in Hout. simpl in Hout. unfold outcome in Hout.
    by repeat case_match.
Qed.

(** The loop of [main] ends within as many passes as the units have
    health in all, plus one. *)
Lemma main_loop_returns (rs : RandomSource) (fuel : nat) (m : Match) :
  Forall healthy (match_units m) →
  (Z.to_nat (total_health (match_units m)) < fuel)%nat →
  ∃ m' st, main_loop fuel rs m = Some (m', st) ∧ st ≠ Running.
Proof.
  revert m. induction fuel as [|fuel IH]; intros m Hhealthy Hfuel; [lia|].
  simpl. pose proof (play_round_healthy rs m Hhealthy) as Hhealthy'.
  destruct (play_round rs m) as [m' [|result|e]] eqn:Hround;
    [|by eexists _, _..].
  apply IH; [done|].
  apply play_round_progress in Hround.
  pose proof (total_health_nonneg _ Hhealthy').
  pose proof (total_health_nonneg _ Hhealthy). simpl in *. lia.
Qed.

(** *** The sizes of a match *)


















(** ** [prompt_choice] *)


(** ** The lines that the shops understand *)

Lemma list_ascii_of_string_app (s t : string) :
  list_ascii_of_string (s ++ t)
  = list_ascii_of_string s ++ list_ascii_of_string t.
Proof. induction s as [|c s IH]; simpl; by f_equal. Qed.

Lemma lstrip_blank (blanks cs : list ascii) :
  Forall (λ c, Py.isspace c = true) blanks →
  Py.lstrip (blanks ++ cs) = Py.lstrip cs.
Proof. induction 1 as [|c blanks Hc _ IH]; simpl; [done|by rewrite Hc]. Qed.

Lemma lstrip_solid (cs : list ascii) :
  Forall (λ c, Py.isspace c = false) cs → Py.lstrip cs = cs.
Proof. destruct 1 as [|c cs Hc _]; simpl; [done|by rewrite Hc]. Qed.

(** A text without blanks comes out of [strip] as it is, whatever
    blanks are put around it. *)
Lemma strip_padded (before s after : string) :
  blank before → blank after →
  Forall (λ c, Py.isspace c = false) (list_ascii_of_string s) →
  Py.strip (before ++ s ++ after) = s.
Proof.
  intros Hbefore Hafter Hsolid. unfold Py.strip.
  rewrite !list_ascii_of_string_app, lstrip_blank by done.
  destruct (list_ascii_of_string s) as [|c cs] eqn:Hs.
  - simpl. rewrite <-(app_nil_r (list_ascii_of_string after)), lstrip_blank
      by done.
    simpl. by destruct s.
  - simpl. inversion Hsolid as [|? ? Hc Hcs]; subst. rewrite Hc.
    change (c :: cs ++ list_ascii_of_string after)
      with ((c :: cs) ++ list_ascii_of_string after).
    rewrite rev_app_distr, lstrip_blank by by apply Forall_rev.
    rewrite lstrip_solid by by apply Forall_rev.
    by rewrite rev_involutive, <-Hs, string_of_list_ascii_of_string.
Qed.

Lemma digit_solid (c : ascii) :
  is_Some (Py.digit c) → Py.isspace c = false ∧ Py.lower_char c = c.
Proof.
  destruct c as [[] [] [] [] [] [] [] []]; intros [x Hx];
    vm_compute in Hx; try discriminate; by vm_compute.
Qed.

Lemma lower_digits (s : string) :
  Forall (λ c, is_Some (Py.digit c)) (list_ascii_of_string s) →
  Py.lower s = s.
Proof.
  intros Hs. unfold Py.lower.
  rewrite <-(string_of_list_ascii_of_string s) at 2. f_equal.
  induction Hs as [|c cs Hc _ IH]; simpl; [done|].
  by rewrite IH, (proj2 (digit_solid c Hc)).
Qed.

(** The digits that the standard printer writes for a number. *)
Lemma uint_chars_digit (d : Decimal.uint) :
  Forall (λ c, is_Some (Py.digit c))
         (list_ascii_of_string (NilEmpty.string_of_uint d)).
Proof.
  induction d; simpl; [constructor|..];
    (constructor; [by eexists|done]).
Qed.

Lemma uint_chars_value (d d' : Decimal.uint) :
  fold_left (λ acc c, 10 * acc + default 0 (Py.digit c))
            (list_ascii_of_string (NilEmpty.string_of_uint d))
            (Z.of_N (DecimalPos.Unsigned.of_lu d'))
  = Z.of_N (DecimalPos.Unsigned.of_lu (Decimal.revapp d d')).
Proof.
  revert d'. induction d as [|d IH|d IH|d IH|d IH|d IH|d IH|d IH|d IH|d IH|d IH];
    intros d'; [done|..]; cbn [Decimal.revapp]; rewrite <-IH; simpl fold_left;
    f_equal; cbn [DecimalPos.Unsigned.of_lu DecimalPos.Unsigned.hd
                  DecimalPos.Unsigned.tl];
    change (default 0 (Py.digit _)) with 0 || idtac; lia.
Qed.

Lemma str_of_int_pos (p : positive) :
  Py.str_of_int (Z.pos p) = NilEmpty.string_of_uint (Pos.to_uint p).
Proof.
  unfold Py.str_of_int. simpl. unfold NilZero.string_of_uint.
  pose proof (DecimalPos.Unsigned.to_uint_nonnil p).
  by destruct (Pos.to_uint p).
Qed.

(** A positive number, as [str] writes it, is a text of digits that
    [int] reads back as the number. *)
Lemma number_typed (n : Z) :
  0 < n →
  Forall (λ c, is_Some (Py.digit c)) (list_ascii_of_string (Py.str_of_int n))
  ∧ Py.isdigit (Py.str_of_int n) = true
  ∧ Py.int_of_str (Py.str_of_int n) = n.
Proof.
  destruct n as [|p|p]; [lia| |lia]. intros _. rewrite str_of_int_pos.
  pose proof (uint_chars_digit (Pos.to_uint p)) as Hdigits.
  split; [done|]. split.
  - unfold Py.isdigit.
    destruct (list_ascii_of_string _) as [|c cs] eqn:Hchars.
    + pose proof (DecimalPos.Unsigned.to_uint_nonnil p).
      by destruct (Pos.to_uint p).
    + apply forallb_forall. intros c' Hc'. apply bool_decide_eq_true.
      rewrite Forall_forall in Hdigits. by apply Hdigits, list_elem_of_In.
  - unfold Py.int_of_str.
    pose proof (uint_chars_value (Pos.to_uint p) Decimal.Nil) as Hvalue.
    simpl in Hvalue. rewrite Hvalue.
    change (Decimal.revapp (Pos.to_uint p) Decimal.Nil)
      with (Decimal.rev (Pos.to_uint p)).
    by rewrite <-DecimalPos.Unsigned.of_uint_alt, DecimalPos.Unsigned.of_to.
Qed.

(** X15: the shops understand what their menus ask for.  The number
    that a menu writes before an entry of its table, typed with any
    blanks around it, picks that entry; the letter d, small or capital
    and with any blanks around it, ends the shop. *)
Theorem menu_lines_understood {A : Type} (table : list A) (i : nat)
    (item : A) (before after : string) :
  table !! i = Some item → blank before → blank after →
  read_choice table (before ++ Py.str_of_int (Z.of_nat (S i)) ++ after)
  = inr (Pick item)
  ∧ read_choice table (before ++ "d" ++ after) = inr Done
  ∧ read_choice table (before ++ "D" ++ after) = inr Done.
Proof.
  intros Hitem Hbefore Hafter. split.
  - destruct (number_typed (Z.of_nat (S i))) as (Hdigits & Hisdigit & Hint);
      [lia|].
    unfold read_choice. rewrite strip_padded; [|done..|].
    2: { eapply Forall_impl; [exact Hdigits|]. intros c Hc.
         by apply digit_solid. }
    rewrite (lower_digits _ Hdigits), Hisdigit, Hint.
    destruct (String.eqb_spec (Py.str_of_int (Z.of_nat (S i))) "d")
      as [Hd|_]; [by rewrite Hd in Hisdigit|].
    apply lookup_lt_Some in Hitem as Hlt.
    replace (1 <=? Z.of_nat (S i)) with true by (symmetry; apply Z.leb_le; lia).
    replace (Z.of_nat (S i) <=? Z.of_nat (length table)) with true
      by (symmetry; apply Z.leb_le; lia).
    simpl negb. simpl orb.
    replace (Z.to_nat (Z.of_nat (S i) - 1)) with i by lia.
    by rewrite Hitem.
  - split; unfold read_choice; rewrite strip_padded; try done;
      by repeat constructor.
Qed.

Lemma menu_lines_understood_witness :
  read_choice UPGRADES " 2  " = inr (Pick (Upgrade.mk (Upgrade.crit 0.05)
                                            "+5% Crit Chance" 5))
  ∧ read_choice UPGRADES " d  " = inr Done
  ∧ read_choice UPGRADES " D  " = inr Done.
Proof.
  apply (menu_lines_understood UPGRADES 1 _ " " "  ");
    [reflexivity|by repeat constructor..].
Defined.

(** ** The crit chances on display *)

Lemma crit_steps_S (n : nat) :
  crit_steps (S n) = Py.fmin 0.75 (crit_steps n + 0.05).
Proof. reflexivity. Qed.

Lemma crit_steps_top (n : nat) : (15 ≤ n)%nat → crit_steps n = 0.75%float.
Proof.
  induction 1 as [|n _ IH]; [by vm_compute|].
  rewrite crit_steps_S, IH. by vm_compute.
Qed.

(** The percentage that is shown for the crit bonus of [n] upgrades. *)
Lemma crit_percent_steps (n : nat) :
  crit_percent (crit_steps n)
  = inr (if (9 <=? n)%nat && (n <=? 11)%nat then 5 * Z.of_nat n - 1
         else Z.min (5 * Z.of_nat n) 75).
Proof.
  destruct (le_lt_dec 15 n) as [Htop|Hlow].
  - rewrite crit_steps_top by done.
    replace (n <=? 11)%nat with false by (symmetry; apply Nat.leb_gt; lia).
    rewrite andb_false_r, Z.min_r by lia. by vm_compute.
  - do 15 (destruct n as [|n]; [by vm_compute|]). lia.
Qed.

Lemma crit_count_cons (up : Upgrade.t) (ups : list Upgrade.t) :
  crit_count (up :: ups)
  = ((if is_crit up then 1 else 0) + crit_count ups)%nat.
Proof.
  unfold crit_count. rewrite filter_cons.
  destruct (is_crit up); by case_decide.
Qed.

(** An upgrade of the table moves the crit bonus one step on when it is
    the crit upgrade, and leaves it alone otherwise. *)
Lemma apply_crit_steps (up : Upgrade.t) (w : Weapon.t) (n : nat) :
  up ∈ UPGRADES → Weapon.crit_bonus w = crit_steps n →
  Weapon.crit_bonus (Upgrade.apply up w)
  = crit_steps ((if is_crit up then 1 else 0) + n).
Proof.
  unfold UPGRADES. rewrite !elem_of_cons, elem_of_nil.
  intros [->|[->|[->|[]]]] Hw; unfold Upgrade.apply; simpl; try done.
  by rewrite Hw.
Qed.

Lemma upgrades_crit_steps (ups : list Upgrade.t) (w : Weapon.t) (n : nat) :
  Forall (λ up, up ∈ UPGRADES) ups → Weapon.crit_bonus w = crit_steps n →
  Weapon.crit_bonus (foldl (λ w up, Upgrade.apply up w) w ups)
  = crit_steps (n + crit_count ups).
Proof.
  intros Hups. revert w n.
  induction Hups as [|up ups Hup _ IH]; intros w n Hw; simpl.
  - by rewrite Nat.add_0_r.
  - rewrite (IH _ _ (apply_crit_steps up w n Hup Hw)), crit_count_cons.
    f_equal. lia.
Qed.

(** X16: the crit bonus of a weapon, and what the upgrade menu shows for
    it, depend only on the number [n] of crit upgrades the weapon has
    had since [Weapon()]: the bonus is the [n]-th value of the float
    sum, and the menu shows [5 * n] percent up to the cap of 75, but one
    less (44, 49, 54) after 9, 10 and 11 upgrades, where the float sum
    falls short of the decimal value. *)
Theorem crit_menu_percent (ups : list Upgrade.t) :
  Forall (λ up, up ∈ UPGRADES) ups →
  let weapon := foldl (λ w up, Upgrade.apply up w) Weapon.new ups in
  let n := crit_count ups in
  Weapon.crit_bonus weapon = crit_steps n
  ∧ crit_percent (Weapon.crit_bonus weapon)
    = inr (if (9 <=? n)%nat && (n <=? 11)%nat then 5 * Z.of_nat n - 1
           else Z.min (5 * Z.of_nat n) 75).
Proof.
  intros Hups weapon n.
  assert (Weapon.crit_bonus weapon = crit_steps n) as Hbonus
    by by apply (upgrades_crit_steps ups Weapon.new 0).
  split; [done|]. rewrite Hbonus. apply crit_percent_steps.
Qed.

Lemma crit_menu_percent_witness :
  let ups := replicate 9 (Upgrade.mk (Upgrade.crit 0.05) "+5% Crit Chance" 5) in
  crit_percent
    (Weapon.crit_bonus (foldl (λ w up, Upgrade.apply up w) Weapon.new ups))
  = inr 44.
Proof.
  intros ups.
  refine (proj2 (crit_menu_percent ups _)).
  repeat constructor; apply (bool_decide_unpack _); by vm_compute.
Defined.

(** ** The displays of a match *)









(** *** What a match keeps of its crit chances *)









